(** * Lockfile generation scripts: a shallow embedding and its properties

    The three scripts of [lockfile-generation/] are embedded as Rocq
    functions:
      - [resolve_urls.py]   (module [resolve_urls]),
      - [lockfile_from_urls.py] (module [lockfile_from_urls]),
      - [enhance_with_size_and_checksum.py] (module
        [enhance_with_size_and_checksum]).

    Python values are represented as follows.  A [str] is a [string] holding
    its UTF-8 bytes (byte-wise comparison of UTF-8 agrees with Python's
    code-point comparison).  An insertion-ordered [dict] is an association
    list with pairwise distinct keys, in insertion order.  A raised
    exception is the [Raise] case of [result].  The pieces of the Python
    standard library the scripts call ([pathlib], [string.Template],
    [sorted], ...) are modelled in module [Py]; the ones whose behaviour
    depends on the outside world or on large tables ([urllib.parse.urlsplit],
    [subprocess.run], the file system, ...) are section variables of the
    scripts, so that every theorem holds whatever they return. *)

From Stdlib Require Import String Ascii List ZArith Bool Lia.
From Stdlib Require Import Permutation Sorted RelationClasses OrdersEx FinFun.
Import ListNotations.
Local Open Scope string_scope.
Local Open Scope list_scope.

(* ================================================================== *)
(** * Models of the Python standard library                            *)
(* ================================================================== *)

Module Py.

(** ** [str] *)

(** Truth value of a string: [bool(s)]. *)
Definition str_bool (s : string) : bool := negb (s =? "").

(** [s.split(sep)] for a one-character separator. *)
Fixpoint split_on (sep : ascii) (s : string) : list string :=
  match s with
  | EmptyString => [EmptyString]
  | String c s' =>
      if Ascii.eqb c sep then EmptyString :: split_on sep s'
      else match split_on sep s' with
           | [] => [String c EmptyString]
           | w :: ws => String c w :: ws
           end
  end.

(** [s.startswith(p)] and [s.endswith(p)]. *)
Fixpoint startswith (s p : string) : bool :=
  match p, s with
  | EmptyString, _ => true
  | String _ _, EmptyString => false
  | String b p', String a s' => Ascii.eqb a b && startswith s' p'
  end.

Definition endswith (s p : string) : bool :=
  let n := String.length s in
  let k := String.length p in
  (k <=? n)%nat && (substring (n - k) k s =? p).

(** [s.lstrip(c)] and [s.rstrip(c)] for a one-character set. *)
Fixpoint lstrip (c : ascii) (s : string) : string :=
  match s with
  | String a s' => if Ascii.eqb a c then lstrip c s' else s
  | EmptyString => EmptyString
  end.

Fixpoint rstrip (c : ascii) (s : string) : string :=
  match s with
  | EmptyString => EmptyString
  | String a s' =>
      match rstrip c s' with
      | EmptyString => if Ascii.eqb a c then EmptyString else String a EmptyString
      | r => String a r
      end
  end.

(** ** Insertion-ordered [dict] *)

Section Dict.
Context {K V : Type}.
Variable eqb : K -> K -> bool.

(** [d.get(k)] *)
Fixpoint dict_get (k : K) (d : list (K * V)) : option V :=
  match d with
  | [] => None
  | (k', v) :: d' => if eqb k' k then Some v else dict_get k d'
  end.

(** [d[k] = v]: an existing key keeps its position, a new one goes last. *)
Fixpoint dict_set (k : K) (v : V) (d : list (K * V)) : list (K * V) :=
  match d with
  | [] => [(k, v)]
  | (k', v') :: d' =>
      if eqb k' k then (k', v) :: d' else (k', v') :: dict_set k v d'
  end.

(** [d.update(pairs)] *)
Definition dict_update (d : list (K * V)) (pairs : list (K * V)) : list (K * V) :=
  fold_left (fun acc kv => dict_set (fst kv) (snd kv) acc) pairs d.
End Dict.

(** ** [sorted]

    [sorted] is a stable sort by [<]; it is written here as the insertion
    sort that places each element after the elements not greater than it. *)

Section Sorted.
Context {A : Type}.
Variable ltb : A -> A -> bool.

Fixpoint insert (x : A) (l : list A) : list A :=
  match l with
  | [] => [x]
  | y :: l' => if ltb x y then x :: l else y :: insert x l'
  end.

Definition sorted (l : list A) : list A :=
  fold_left (fun acc x => insert x acc) l [].
End Sorted.

(** Order of [str]: code points, i.e. bytes of the UTF-8 encoding. *)
Definition str_ltb (a b : string) : bool :=
  match String_as_OT.compare a b with Lt => true | _ => false end.

(** ** [pathlib.PurePosixPath]

    A path is its root (["" ], ["/"] or ["//"]) and the list of its
    components; empty components and ["."] are dropped when a path is
    parsed, [".."] is kept. *)

Record PurePosixPath : Type := { root : string; tail : list string }.

(** [posixpath.splitroot], without the (always empty) drive. *)
Definition splitroot (p : string) : string * string :=
  match p with
  | String c0 rest =>
      if Ascii.eqb c0 "/" then
        match rest with
        | String c1 rest2 =>
            if Ascii.eqb c1 "/" then
              match rest2 with
              | String c2 _ => if Ascii.eqb c2 "/" then ("/", rest) else ("//", rest2)
              | EmptyString => ("//", rest2)
              end
            else ("/", rest)
        | EmptyString => ("/", rest)
        end
      else ("", p)
  | EmptyString => ("", p)
  end.

Definition is_component (x : string) : bool := negb (x =? "") && negb (x =? ".").

(** [Path(s)] *)
Definition Path (s : string) : PurePosixPath :=
  let (r, rel) := splitroot s in
  {| root := r; tail := filter is_component (split_on "/" rel) |}.

(** [p.name] *)
Definition name (p : PurePosixPath) : string := last (tail p) "".

Definition list_eqb {A} (eqb : A -> A -> bool) : list A -> list A -> bool :=
  fix go l1 l2 :=
    match l1, l2 with
    | [], [] => true
    | x :: l1', y :: l2' => eqb x y && go l1' l2'
    | _, _ => false
    end.

(** [p == q] *)
Definition path_eqb (p q : PurePosixPath) : bool :=
  (root p =? root q) && list_eqb String.eqb (tail p) (tail q).

(** [p.parents]: the path with its last component removed, and so on up to
    the root (or ["."]). *)
Definition parents (p : PurePosixPath) : list PurePosixPath :=
  map (fun k => {| root := root p; tail := firstn k (tail p) |})
      (rev (seq 0 (List.length (tail p)))).

(** [p.is_relative_to(other)]: [other == p or other in p.parents]. *)
Definition is_relative_to (p other : PurePosixPath) : bool :=
  path_eqb other p || existsb (path_eqb other) (parents p).

(** [posixpath.join(a, *ps)] and [a / p1 / p2 / ...]. *)
Definition posixpath_join (a : string) (ps : list string) : string :=
  fold_left
    (fun path b =>
       if startswith b "/" then b
       else if (path =? "") || endswith path "/" then (path ++ b)%string
       else (path ++ "/" ++ b)%string)
    ps a.

Definition joinpath (a : string) (ps : list string) : PurePosixPath :=
  Path (posixpath_join a ps).

(** [p.suffix] of a path whose final component is [nm]: the part of [nm]
    from its last dot, when that dot is neither first nor last. *)
Fixpoint rfind_dot (s : string) : option nat :=
  match s with
  | EmptyString => None
  | String c s' =>
      match rfind_dot s' with
      | Some i => Some (S i)
      | None => if Ascii.eqb c "." then Some 0 else None
      end
  end.

Definition suffix (nm : string) : string :=
  match rfind_dot nm with
  | Some i =>
      if (0 <? i)%nat && (i <? String.length nm - 1)%nat
      then substring i (String.length nm - i) nm else ""
  | None => ""
  end.

(** ** [urllib.parse.SplitResult] *)

Record SplitResult : Type :=
  { scheme : string; netloc : string; path : string;
    query : string; fragment : string }.

Definition SplitResult_eqb (a b : SplitResult) : bool :=
  (scheme a =? scheme b) && (netloc a =? netloc b) && (path a =? path b)
  && (query a =? query b) && (fragment a =? fragment b).

(** ** Exceptions *)

Inductive exn : Type :=
| ValueError (msg : string)
| KeyError (key : string)
| CalledProcessError (returncode : Z) (cmd : list string)
| FileNotFoundError (filename : PurePosixPath)
| IsADirectoryError (filename : PurePosixPath)
| PermissionError (filename : PurePosixPath)
| ConfigParserError (msg : string)
| InterpolationSyntaxError (msg : string).

Inductive result (A : Type) : Type :=
| Ok (a : A)
| Raise (e : exn).
Arguments Ok {A} a.
Arguments Raise {A} e.

Definition bind {A B} (m : result A) (f : A -> result B) : result B :=
  match m with
  | Ok a => f a
  | Raise e => Raise e
  end.

(** [for x in l: acc = f(acc, x)], stopping at the first exception. *)
Fixpoint foldM {A B} (f : B -> A -> result B) (l : list A) (acc : B) : result B :=
  match l with
  | [] => Ok acc
  | x :: l' => bind (f acc x) (foldM f l')
  end.

(** [[f(x) for x in l]], stopping at the first exception. *)
Fixpoint mapM {A B} (f : A -> result B) (l : list A) : result (list B) :=
  match l with
  | [] => Ok []
  | x :: l' => bind (f x) (fun y => bind (mapM f l') (fun ys => Ok (y :: ys)))
  end.

(** ** [string.Template.safe_substitute]

    [Template(tmpl).safe_substitute({"basearch": arch})].  The template is
    scanned from left to right: [$$] is an escaped dollar, [$name] and
    [${name}] are placeholders ([name] is the longest run matching
    [[_a-zA-Z][_a-zA-Z0-9]*]), and any other [$] is left where it is.
    Placeholders other than [basearch] are left unexpanded. *)

Definition in_range (lo hi : nat) (c : ascii) : bool :=
  (lo <=? nat_of_ascii c)%nat && (nat_of_ascii c <=? hi)%nat.

Definition is_alpha (c : ascii) : bool := in_range 65 90 c || in_range 97 122 c.
Definition is_digit (c : ascii) : bool := in_range 48 57 c.
Definition id_start (c : ascii) : bool := is_alpha c || Ascii.eqb c "_".
Definition id_char (c : ascii) : bool := id_start c || is_digit c.

Inductive tstate : Type :=
| TText
| TDollar
| TNamed (id : string)
| TBraced (id : string).

Definition lookup_basearch (arch id whole : string) : string :=
  if id =? "basearch" then arch else whole.

Fixpoint substitute (arch : string) (st : tstate) (s : string) : string :=
  match s with
  | EmptyString =>
      match st with
      | TText => ""
      | TDollar => "$"
      | TNamed id => lookup_basearch arch id ("$" ++ id)
      | TBraced id => "${" ++ id
      end
  | String c rest =>
      let text :=
        if Ascii.eqb c "$" then substitute arch TDollar rest
        else String c (substitute arch TText rest) in
      match st with
      | TText => text
      | TDollar =>
          if Ascii.eqb c "$" then String c (substitute arch TText rest)
          else if id_start c then substitute arch (TNamed (String c "")) rest
          else if Ascii.eqb c "{" then substitute arch (TBraced "") rest
          else "$" ++ text
      | TNamed id =>
          if id_char c then substitute arch (TNamed (id ++ String c "")) rest
          else lookup_basearch arch id ("$" ++ id) ++ text
      | TBraced id =>
          if (if id =? "" then id_start c else id_char c)
          then substitute arch (TBraced (id ++ String c "")) rest
          else if negb (id =? "") && Ascii.eqb c "}"
          then lookup_basearch arch id ("${" ++ id ++ "}") ++ substitute arch TText rest
          else "${" ++ id ++ text
      end
  end.

Definition safe_substitute (tmpl arch : string) : string := substitute arch TText tmpl.

(** ** A model of [urllib.parse.urlsplit]

    The scripts take [urlsplit] as a parameter; this model is what the
    examples instantiate it with.  It follows the library on URLs whose
    network location is ASCII and has no square bracket; the library
    validates the other ones further (IPv6 literals, NFKC normalisation),
    and the model reports them all as [ValueError]. *)

Fixpoint lstrip_if (p : ascii -> bool) (s : string) : string :=
  match s with
  | String a s' => if p a then lstrip_if p s' else s
  | EmptyString => EmptyString
  end.

Fixpoint str_filter (p : ascii -> bool) (s : string) : string :=
  match s with
  | String a s' => if p a then String a (str_filter p s') else str_filter p s'
  | EmptyString => EmptyString
  end.

Fixpoint str_forallb (p : ascii -> bool) (s : string) : bool :=
  match s with
  | String a s' => p a && str_forallb p s'
  | EmptyString => true
  end.

(** [break_at p s]: [s] cut before its first character satisfying [p]. *)
Fixpoint break_at (p : ascii -> bool) (s : string) : string * string :=
  match s with
  | String a s' =>
      if p a then ("", s) else let (l, r) := break_at p s' in (String a l, r)
  | EmptyString => ("", "")
  end.

Definition to_lower (c : ascii) : ascii :=
  if in_range 65 90 c then ascii_of_nat (nat_of_ascii c + 32) else c.

Fixpoint str_map (f : ascii -> ascii) (s : string) : string :=
  match s with
  | String a s' => String (f a) (str_map f s')
  | EmptyString => EmptyString
  end.

Definition is_char (c : ascii) : ascii -> bool := Ascii.eqb c.

Definition scheme_char (c : ascii) : bool :=
  is_alpha c || is_digit c || is_char "+" c || is_char "-" c || is_char "." c.

Definition unsafe_byte (c : ascii) : bool :=
  (nat_of_ascii c =? 9)%nat || (nat_of_ascii c =? 10)%nat || (nat_of_ascii c =? 13)%nat.

Definition split_scheme (url : string) : string * string :=
  match break_at (is_char ":") url with
  | (String c0 pre', String _ post) =>
      if is_alpha c0 && str_forallb scheme_char pre'
      then (str_map to_lower (String c0 pre'), post)
      else ("", url)
  | _ => ("", url)
  end.

Definition split_netloc (url : string) : string * string :=
  match url with
  | String a (String b rest) =>
      if is_char "/" a && is_char "/" b
      then break_at (fun c => is_char "/" c || is_char "?" c || is_char "#" c) rest
      else ("", url)
  | _ => ("", url)
  end.

Definition netloc_in_model (nl : string) : bool :=
  str_forallb (fun c => (nat_of_ascii c <? 128)%nat
                        && negb (is_char "[" c) && negb (is_char "]" c)) nl.

(** [s.split(c, 1)] as a pair; the second part is empty without [c]. *)
Definition split_once (c : ascii) (s : string) : string * string :=
  match break_at (is_char c) s with
  | (l, String _ r) => (l, r)
  | (l, EmptyString) => (l, "")
  end.

Definition urlsplit_model (url : string) : result SplitResult :=
  let url := lstrip_if (fun c => (nat_of_ascii c <=? 32)%nat) url in
  let url := str_filter (fun c => negb (unsafe_byte c)) url in
  let (sch, url) := split_scheme url in
  let (nl, url) := split_netloc url in
  if negb (netloc_in_model nl) then Raise (ValueError "Invalid IPv6 URL") else
  let (url, frag) := split_once "#" url in
  let (url, qry) := split_once "?" url in
  Ok {| scheme := sch; netloc := nl; path := url; query := qry; fragment := frag |}.

(** [str.splitlines] and [str.split()] on ASCII text with [\n] line ends
    and blanks as separators, for the examples. *)
Definition splitlines_model (s : string) : list string :=
  match rev (split_on "010" s) with
  | "" :: ls => rev ls
  | ls => rev ls
  end.

Definition split_model (s : string) : list string :=
  filter str_bool
    (split_on " " (str_map (fun c => if in_range 9 13 c then " "%char else c) s)).

(** [[x for x in l if p(x)]], stopping at the first exception. *)
Fixpoint filterM {A} (p : A -> result bool) (l : list A) : result (list A) :=
  match l with
  | [] => Ok []
  | x :: l' =>
      bind (p x) (fun keep =>
      bind (filterM p l') (fun xs => Ok (if keep then x :: xs else xs)))
  end.

(** ** Effects: processes run and lines printed

    An effectful function takes the trace of events so far and returns its
    result (or the exception it raised) with the extended trace. *)

Record CompletedProcess : Type :=
  { args : list string; returncode : Z; stdout : string; stderr : string }.

(** What a finished child process leaves: exit status and captured text. *)
Record ProcessOutput : Type :=
  { exit_status : Z; captured_stdout : string; captured_stderr : string }.

Inductive event : Type :=
| Run (cmd : list string)
| PrintStderr (line : string)
| PrintStdout (line : string).

Definition IO (A : Type) : Type := list event -> result A * list event.

Definition io_ret {A} (a : A) : IO A := fun t => (Ok a, t).

Definition io_bind {A B} (m : IO A) (f : A -> IO B) : IO B :=
  fun t =>
    match m t with
    | (Ok a, t') => f a t'
    | (Raise e, t') => (Raise e, t')
    end.

Definition io_lift {A} (r : result A) : IO A := fun t => (r, t).

Definition emit (e : event) : IO unit := fun t => (Ok tt, t ++ [e]).

(** [for x in l: body(x)] *)
Fixpoint io_for {A} (l : list A) (body : A -> IO unit) : IO unit :=
  match l with
  | [] => io_ret tt
  | x :: l' => io_bind (body x) (fun _ => io_for l' body)
  end.

(** Order of lists ([list.__lt__]) and of pairs ([tuple.__lt__]). *)
Fixpoint list_ltb {A} (eqb ltb : A -> A -> bool) (l1 l2 : list A) : bool :=
  match l1, l2 with
  | _, [] => false
  | [], _ :: _ => true
  | x :: l1', y :: l2' => if eqb x y then list_ltb eqb ltb l1' l2' else ltb x y
  end.

Definition pair_ltb {A B} (eqbA ltbA : A -> A -> bool) (ltbB : B -> B -> bool)
    (p q : A * B) : bool :=
  if eqbA (fst p) (fst q) then ltbB (snd p) (snd q) else ltbA (fst p) (fst q).

(** [SplitResult.geturl] and [repr] of a string without quotes,
    backslashes or control characters, for the examples. *)
Definition uses_netloc : list string :=
  ["ftp"; "http"; "gopher"; "nntp"; "telnet"; "imap"; "wais"; "file"; "mms";
   "https"; "shttp"; "snews"; "prospero"; "rtsp"; "rtspu"; "rsync"; "svn";
   "svn+ssh"; "sftp"; "nfs"; "git"; "git+ssh"; "ws"; "wss"].

Definition geturl_model (u : SplitResult) : string :=
  let url := path u in
  let url :=
    if str_bool (netloc u)
       || (existsb (String.eqb (scheme u)) uses_netloc && negb (startswith url "//"))
    then ("//" ++ netloc u
          ++ (if str_bool url && negb (startswith url "/") then "/" ++ url else url))%string
    else url in
  let url := if str_bool (scheme u) then (scheme u ++ ":" ++ url)%string else url in
  let url := if str_bool (query u) then (url ++ "?" ++ query u)%string else url in
  if str_bool (fragment u) then (url ++ "#" ++ fragment u)%string else url.

Definition repr_model (s : string) : string := "'" ++ s ++ "'".

(** ** Facts about the models *)

Lemma list_eqb_eq (l1 l2 : list string) :
  list_eqb String.eqb l1 l2 = true <-> l1 = l2.
Proof.
  revert l2; induction l1 as [|x l1 IH]; intros [|y l2]; simpl;
    try (split; (discriminate || reflexivity)).
  rewrite andb_true_iff, String.eqb_eq, IH.
  split; [intros [-> ->]; reflexivity | intros [= -> ->]; auto].
Qed.

Lemma path_eqb_eq (p q : PurePosixPath) : path_eqb p q = true <-> p = q.
Proof.
  unfold path_eqb. rewrite andb_true_iff, String.eqb_eq, list_eqb_eq.
  destruct p, q; simpl. split; [intros [-> ->]; reflexivity | intros [= -> ->]; auto].
Qed.

Lemma SplitResult_eqb_eq (a b : SplitResult) : SplitResult_eqb a b = true <-> a = b.
Proof.
  unfold SplitResult_eqb. rewrite !andb_true_iff, !String.eqb_eq.
  destruct a, b; simpl. split.
  - intros [[[[-> ->] ->] ->] ->]; reflexivity.
  - intros [= -> -> -> -> ->]; auto.
Qed.

(** The paths [p] is relative to: those with its root and a prefix of its
    components. *)
Lemma is_relative_to_spec (p other : PurePosixPath) :
  is_relative_to p other = true <->
  root p = root other /\ exists segs, tail p = tail other ++ segs.
Proof.
  unfold is_relative_to. rewrite orb_true_iff, path_eqb_eq, existsb_exists. split.
  - intros [-> | [q [Hin Heq]]].
    + split; [reflexivity | exists []; now rewrite app_nil_r].
    + apply path_eqb_eq in Heq. subst q. unfold parents in Hin.
      apply in_map_iff in Hin. destruct Hin as [k [<- _]]. simpl. split; [reflexivity|].
      exists (skipn k (tail p)). symmetry. apply firstn_skipn.
  - intros [Hr [segs Ht]]. destruct segs as [|s segs].
    + left. rewrite app_nil_r in Ht. destruct p, other; simpl in *; congruence.
    + right. exists other. split; [| now apply path_eqb_eq].
      unfold parents. apply in_map_iff. exists (List.length (tail other)). split.
      * rewrite Ht, firstn_app, firstn_all, Nat.sub_diag. simpl. rewrite app_nil_r.
        destruct other; simpl in *; congruence.
      * rewrite <- in_rev. apply in_seq. rewrite Ht, length_app. simpl. lia.
Qed.

Lemma Path_empty : Path "" = {| root := ""; tail := [] |}.
Proof. reflexivity. Qed.

(** A path string that starts with a slash parses to a rooted path. *)
Lemma startswith_slash (s : string) :
  startswith s "/" = true -> exists rest, s = String "/" rest.
Proof.
  destruct s as [|c0 rest]; simpl; [discriminate|].
  destruct (Ascii.eqb_spec c0 "/") as [->|]; [eauto | discriminate].
Qed.

Lemma root_Path_absolute (s : string) :
  startswith s "/" = true -> root (Path s) = "/" \/ root (Path s) = "//".
Proof.
  intros H. apply startswith_slash in H. destruct H as [rest ->].
  unfold Path, splitroot. simpl.
  destruct rest as [|c1 rest2]; simpl; auto.
  destruct (Ascii.eqb c1 "/"); simpl; auto.
  destruct rest2 as [|c2 rest3]; simpl; auto.
  destruct (Ascii.eqb c2 "/"); simpl; auto.
Qed.

Lemma foldM_app {A B} (f : B -> A -> result B) (l1 l2 : list A) (acc : B) :
  foldM f (l1 ++ l2) acc = bind (foldM f l1 acc) (foldM f l2).
Proof.
  revert acc; induction l1 as [|x l1 IH]; intros acc; simpl; [reflexivity|].
  destruct (f acc x); simpl; auto.
Qed.

(** A loop whose body raises at some element, whatever was accumulated,
    raises; [P] is any property of all the exceptions the body can raise. *)
Lemma foldM_raises {A B} (f : B -> A -> result B) (P : exn -> Prop)
    (l : list A) (x : A) :
  In x l ->
  (forall acc, exists e, f acc x = Raise e) ->
  (forall acc y e, f acc y = Raise e -> P e) ->
  forall acc, exists e, foldM f l acc = Raise e /\ P e.
Proof.
  intros Hin Hx HP. induction l as [|y l IH]; [contradiction|].
  intros acc. simpl. destruct (f acc y) as [acc'|e] eqn:E.
  - destruct Hin as [->|Hin].
    + destruct (Hx acc) as [e He]. congruence.
    + simpl. apply IH, Hin.
  - exists e. simpl. split; [reflexivity | eapply HP, E].
Qed.


(** *** [sorted] *)

Section SortedFacts.
Context {A : Type}.
Variable ltb : A -> A -> bool.

Lemma insert_perm (x : A) (l : list A) : Permutation (insert ltb x l) (x :: l).
Proof.
  induction l as [|y l IH]; simpl; [reflexivity|].
  destruct (ltb x y); [reflexivity|].
  rewrite IH. apply perm_swap.
Qed.

Lemma fold_insert_perm (l acc : list A) :
  Permutation (fold_left (fun acc x => insert ltb x acc) l acc) (acc ++ l).
Proof.
  revert acc; induction l as [|x l IH]; intros acc; simpl.
  - now rewrite app_nil_r.
  - rewrite IH, insert_perm. apply Permutation_middle.
Qed.

(** The sorted list has the elements of the list, as many times each. *)
Lemma sorted_perm (l : list A) : Permutation (sorted ltb l) l.
Proof. unfold sorted. now rewrite fold_insert_perm. Qed.

(** [<] is a strict total order. *)
Hypothesis ltb_irrefl : forall x, ltb x x = false.
Hypothesis ltb_trans :
  forall x y z, ltb x y = true -> ltb y z = true -> ltb x z = true.
Hypothesis ltb_total : forall x y, ltb x y = false -> ltb y x = false -> x = y.

Definition not_after (x y : A) : Prop := ltb y x = false.

Lemma ltb_asym (x y : A) : ltb x y = true -> ltb y x = false.
Proof.
  intros H. destruct (ltb y x) eqn:E; [|reflexivity].
  rewrite <- (ltb_irrefl x). symmetry. eapply ltb_trans; eassumption.
Qed.

Lemma insert_sorted (x : A) (l : list A) :
  StronglySorted not_after l -> StronglySorted not_after (insert ltb x l).
Proof.
  induction 1 as [|y l Hs IH Hall]; simpl.
  - repeat constructor.
  - destruct (ltb x y) eqn:E.
    + constructor; [constructor; assumption|].
      constructor; [now apply ltb_asym|].
      rewrite Forall_forall in *. intros z Hz. specialize (Hall z Hz).
      unfold not_after in *. destruct (ltb z x) eqn:Ezx; [|reflexivity].
      rewrite <- Hall. symmetry. eapply ltb_trans; eassumption.
    + constructor; [assumption|].
      eapply Permutation_Forall; [symmetry; apply insert_perm|].
      constructor; assumption.
Qed.

Lemma sorted_sorted (l : list A) : StronglySorted not_after (sorted ltb l).
Proof.
  unfold sorted.
  assert (H : forall acc, StronglySorted not_after acc ->
            StronglySorted not_after (fold_left (fun acc x => insert ltb x acc) l acc)).
  { induction l as [|x l IH]; intros acc Hacc; simpl; [assumption|].
    apply IH, insert_sorted, Hacc. }
  apply H. constructor.
Qed.

Lemma sorted_perm_unique (l1 l2 : list A) :
  StronglySorted not_after l1 -> StronglySorted not_after l2 ->
  Permutation l1 l2 -> l1 = l2.
Proof.
  intros H1; revert l2; induction H1 as [|x l1 Hs1 IH Hall1]; intros l2 H2 Hp.
  - apply Permutation_nil in Hp. now subst.
  - destruct H2 as [|y l2 Hs2 Hall2].
    + apply Permutation_sym, Permutation_nil in Hp. discriminate.
    + assert (Hxy : x = y).
      { assert (Hx : In x (y :: l2)) by (eapply Permutation_in; [exact Hp | now left]).
        assert (Hy : In y (x :: l1))
          by (eapply Permutation_in; [symmetry; exact Hp | now left]).
        rewrite Forall_forall in Hall1, Hall2.
        destruct Hx as [->|Hx]; [reflexivity|].
        destruct Hy as [->|Hy]; [reflexivity|].
        apply ltb_total; [apply (Hall2 _ Hx) | apply (Hall1 _ Hy)]. }
      subst y. f_equal. apply IH; [assumption|].
      eapply Permutation_cons_inv, Hp.
Qed.

(** The sorted list depends on the elements only, not on their order. *)
Lemma sorted_permutation (l l' : list A) :
  Permutation l l' -> sorted ltb l = sorted ltb l'.
Proof.
  intros Hp. apply sorted_perm_unique; try apply sorted_sorted.
  now rewrite !sorted_perm.
Qed.

End SortedFacts.

(** [<] on [str] is a strict total order. *)
Lemma str_ltb_lt (a b : string) : str_ltb a b = true <-> String_as_OT.lt a b.
Proof.
  unfold str_ltb, String_as_OT.lt.
  destruct (String_as_OT.compare a b); split; congruence.
Qed.

Lemma str_ltb_irrefl (a : string) : str_ltb a a = false.
Proof.
  destruct (str_ltb a a) eqn:E; [|reflexivity].
  apply str_ltb_lt in E. now apply (StrictOrder_Irreflexive a) in E.
Qed.

Lemma str_ltb_trans (a b c : string) :
  str_ltb a b = true -> str_ltb b c = true -> str_ltb a c = true.
Proof.
  rewrite !str_ltb_lt. apply (StrictOrder_Transitive a b c).
Qed.

Lemma str_ltb_total (a b : string) :
  str_ltb a b = false -> str_ltb b a = false -> a = b.
Proof.
  intros H1 H2. destruct (String_as_OT.compare_spec a b) as [E|E|E].
  - exact E.
  - apply str_ltb_lt in E. congruence.
  - apply str_ltb_lt in E. congruence.
Qed.

(** A property of the accumulator that every successful step keeps holds
    at the end of a loop that completes. *)
Lemma foldM_invariant {A B} (f : B -> A -> result B) (I : B -> Prop) (l : list A) :
  (forall acc x acc', In x l -> I acc -> f acc x = Ok acc' -> I acc') ->
  forall acc acc', I acc -> foldM f l acc = Ok acc' -> I acc'.
Proof.
  induction l as [|x l IH]; intros Hstep acc acc' Hacc; simpl.
  - intros [= <-]. exact Hacc.
  - destruct (f acc x) as [acc1|] eqn:E; simpl; [|discriminate].
    apply IH.
    + intros a y a' Hy. apply Hstep. now right.
    + eapply Hstep; [now left | exact Hacc | exact E].
Qed.

Lemma dict_set_In (k : SplitResult) (v : string) (d : list (SplitResult * string))
    (k' : SplitResult) (v' : string) :
  In (k', v') (dict_set SplitResult_eqb k v d) -> (k' = k /\ v' = v) \/ In (k', v') d.
Proof.
  induction d as [|[k0 v0] d IH]; simpl.
  - intros [[= <- <-]|[]]. auto.
  - destruct (SplitResult_eqb k0 k) eqn:E; simpl.
    + apply SplitResult_eqb_eq in E. subst k0. intros [[= <- <-]|H]; auto.
    + intros [H|H]; [auto|]. destruct (IH H); auto.
Qed.

(** *** [mapM] *)

Lemma mapM_app {A B} (f : A -> result B) (l1 l2 : list A) (l1' l2' : list B) :
  mapM f l1 = Ok l1' -> mapM f l2 = Ok l2' -> mapM f (l1 ++ l2) = Ok (l1' ++ l2').
Proof.
  revert l1'; induction l1 as [|x l1 IH]; intros l1'; simpl.
  - intros [= <-]. auto.
  - destruct (f x) as [y|]; simpl; [|discriminate].
    destruct (mapM f l1) as [ys|]; simpl; [|discriminate].
    intros [= <-] H2. now rewrite (IH ys eq_refl H2).
Qed.


Lemma mapM_Forall2 {A B} (f : A -> result B) (l : list A) (l' : list B) :
  mapM f l = Ok l' <-> Forall2 (fun x y => f x = Ok y) l l'.
Proof.
  revert l'; induction l as [|x l IH]; intros l'; simpl.
  - split; [intros [= <-]; constructor | intros H; inversion H; reflexivity].
  - split.
    + destruct (f x) as [y|] eqn:E; simpl; [|discriminate].
      destruct (mapM f l) as [ys|]; simpl; [|discriminate].
      intros [= <-]. constructor; [exact E | now apply IH].
    + intros H. inversion H as [|? y ? ys Hx Hl]; subst.
      rewrite Hx. simpl. apply IH in Hl. now rewrite Hl.
Qed.

Lemma mapM_length {A B} (f : A -> result B) (l : list A) (l' : list B) :
  mapM f l = Ok l' -> List.length l' = List.length l.
Proof.
  intros H. apply mapM_Forall2 in H. symmetry. eapply Forall2_length, H.
Qed.

(** *** Insertion-ordered [dict], continued *)

Section DictFacts.
Context {K V : Type}.
Variable eqb : K -> K -> bool.
Hypothesis eqb_eq : forall a b, eqb a b = true <-> a = b.

(** [(k, v)] is the last pair of [pairs] with the key [k]. *)
Definition last_binding (pairs : list (K * V)) (k : K) (v : V) : Prop :=
  exists before after, pairs = before ++ (k, v) :: after /\ ~ In k (map fst after).

Lemma last_binding_cons (x : K * V) (pairs : list (K * V)) (k : K) (v : V) :
  last_binding (x :: pairs) k v
  <-> last_binding pairs k v \/ (x = (k, v) /\ ~ In k (map fst pairs)).
Proof.
  unfold last_binding. split.
  - intros (before & after & Heq & Hlast). destruct before as [|y before]; simpl in Heq.
    + injection Heq as -> ->. right. auto.
    + injection Heq as -> ->. left. eauto.
  - intros [(before & after & -> & Hlast) | [-> Hlast]].
    + exists (x :: before), after. auto.
    + exists [], pairs. auto.
Qed.

Lemma last_binding_key (pairs : list (K * V)) (k : K) (v : V) :
  last_binding pairs k v -> In k (map fst pairs).
Proof.
  intros (before & after & -> & _). rewrite map_app, in_app_iff. right. now left.
Qed.

Lemma dict_set_keys (k : K) (v : V) (d : list (K * V)) (k' : K) :
  In k' (map fst (dict_set eqb k v d)) <-> k' = k \/ In k' (map fst d).
Proof.
  induction d as [|[k0 v0] d IH]; simpl.
  - split; [intros [<-|[]]; auto | intros [->|[]]; auto].
  - destruct (eqb k0 k) eqn:E; simpl.
    + apply eqb_eq in E. subst k0.
      split; [intros [<-|H]; auto | intros [->|[<-|H]]; auto].
    + rewrite IH. split; [intros [<-|[->|H]]; auto | intros [->|[<-|H]]; auto].
Qed.

Lemma dict_set_NoDup (k : K) (v : V) (d : list (K * V)) :
  NoDup (map fst d) -> NoDup (map fst (dict_set eqb k v d)).
Proof.
  induction d as [|[k0 v0] d IH]; simpl; intros Hnd.
  - constructor; [intros [] | constructor].
  - inversion Hnd as [|? ? Hnotin Hnd']; subst.
    destruct (eqb k0 k) eqn:E; simpl.
    + constructor; assumption.
    + constructor; [|apply IH, Hnd'].
      rewrite dict_set_keys. intros [->|H]; [|now apply Hnotin].
      assert (Hkk : eqb k k = true) by now apply eqb_eq. congruence.
Qed.

Lemma dict_set_In_iff (k : K) (v : V) (d : list (K * V)) (k' : K) (v' : V) :
  NoDup (map fst d) ->
  In (k', v') (dict_set eqb k v d)
  <-> (k' = k /\ v' = v) \/ (k' <> k /\ In (k', v') d).
Proof.
  induction d as [|[k0 v0] d IH]; simpl; intros Hnd.
  - split.
    + intros [[= <- <-]|[]]. auto.
    + intros [[-> ->]|[_ []]]. auto.
  - inversion Hnd as [|? ? Hnotin Hnd']; subst.
    destruct (eqb k0 k) eqn:E; simpl.
    + apply eqb_eq in E. subst k0. split.
      * intros [[= <- <-]|H]; [auto|]. right. split; [|auto].
        intros ->. apply Hnotin. apply (in_map fst) in H. exact H.
      * intros [[-> ->]|[Hne [[= <- <-]|H]]]; auto. now destruct Hne.
    + rewrite (IH Hnd'). split.
      * intros [[= <- <-]|[H|[Hne H]]]; auto.
        right. split; [|auto]. intros ->.
        assert (Hkk : eqb k k = true) by now apply eqb_eq. congruence.
      * intros [H|[Hne [H|H]]]; auto.
Qed.

(** After [d.update(pairs)] a key of [pairs] has the value of its last
    pair, and the other keys have the value they had. *)
Lemma dict_update_spec (pairs d : list (K * V)) :
  NoDup (map fst d) ->
  NoDup (map fst (dict_update eqb d pairs))
  /\ forall k v, In (k, v) (dict_update eqb d pairs)
                 <-> last_binding pairs k v
                     \/ (~ In k (map fst pairs) /\ In (k, v) d).
Proof.
  revert d; induction pairs as [|[k0 v0] pairs IH]; intros d Hnd.
  - split; [exact Hnd|]. intros k v. simpl. split.
    + auto.
    + intros [(before & after & Heq & _)|[_ H]]; [|exact H].
      destruct before; discriminate.
  - unfold dict_update in *. simpl.
    destruct (IH (dict_set eqb k0 v0 d) (dict_set_NoDup k0 v0 d Hnd)) as [Hnd' Hin].
    split; [exact Hnd'|]. intros k v.
    rewrite Hin, last_binding_cons, (dict_set_In_iff k0 v0 d k v Hnd). simpl. split.
    + intros [H|[Hnotin [[-> ->]|[Hne H]]]]; auto.
      right. split; [|exact H]. intros [Heq|Hk]; [now apply Hne | now apply Hnotin].
    + intros [[H|[[= <- <-] Hnotin]]|[Hnotin H]]; auto.
      right. split; [intros Hk; apply Hnotin; now right|].
      right. split; [|exact H]. intros ->. apply Hnotin. now left.
Qed.

Lemma last_binding_exists (pairs : list (K * V)) (k : K) :
  In k (map fst pairs) -> exists v, last_binding pairs k v.
Proof.
  induction pairs as [|[k0 v0] pairs IH]; simpl; [intros []|].
  intros Hin.
  destruct (existsb (eqb k) (map fst pairs)) eqn:E.
  - apply existsb_exists in E. destruct E as (k' & Hk' & Heq).
    apply eqb_eq in Heq. subst k'. destruct (IH Hk') as [v Hv].
    exists v. apply last_binding_cons. now left.
  - assert (Hnotin : ~ In k (map fst pairs)).
    { intros Hk. assert (Ht : existsb (eqb k) (map fst pairs) = true).
      { apply existsb_exists. exists k. split; [exact Hk | now apply eqb_eq]. }
      congruence. }
    destruct Hin as [->|Hin]; [|contradiction].
    exists v0. apply last_binding_cons. right. auto.
Qed.

Lemma dict_update_app (d p1 p2 : list (K * V)) :
  dict_update eqb d (p1 ++ p2) = dict_update eqb (dict_update eqb d p1) p2.
Proof. unfold dict_update. apply fold_left_app. Qed.

End DictFacts.

(** *** [mapM] and [filterM], continued *)

Lemma mapM_app_eq {A B} (f : A -> result B) (l1 l2 : list A) :
  mapM f (l1 ++ l2)
  = bind (mapM f l1) (fun x => bind (mapM f l2) (fun y => Ok (x ++ y))).
Proof.
  induction l1 as [|a l1 IH]; simpl.
  - destruct (mapM f l2); reflexivity.
  - destruct (f a) as [b|]; simpl; [|reflexivity]. rewrite IH.
    destruct (mapM f l1) as [x|]; simpl; [|reflexivity].
    destruct (mapM f l2) as [y|]; reflexivity.
Qed.

Lemma mapM_map {A B C} (f : B -> result C) (g : A -> B) (l : list A) :
  mapM f (map g l) = mapM (fun a => f (g a)) l.
Proof.
  induction l as [|a l IH]; simpl; [reflexivity|]. now rewrite IH.
Qed.

(** A list comprehension with a condition that may raise: the result is
    the filtered list when the condition raises on no element. *)
Lemma filterM_Ok {A} (p : A -> result bool) (l l' : list A) :
  filterM p l = Ok l' ->
  Forall (fun x => exists b, p x = Ok b) l
  /\ l' = filter (fun x => match p x with Ok b => b | Raise _ => false end) l.
Proof.
  revert l'; induction l as [|x l IH]; intros l'; simpl.
  - intros [= <-]. split; [constructor | reflexivity].
  - destruct (p x) as [b|] eqn:E; simpl; [|discriminate].
    destruct (filterM p l) as [xs|]; simpl; [|discriminate].
    intros [= <-]. destruct (IH xs eq_refl) as [Hall ->].
    split; [constructor; eauto|]. now destruct b.
Qed.

(** It raises the exception of the first element the condition raises on. *)
Lemma filterM_Raise {A} (p : A -> result bool) (before after : list A) (x : A) (e : exn) :
  Forall (fun y => exists b, p y = Ok b) before ->
  p x = Raise e ->
  filterM p (before ++ x :: after) = Raise e.
Proof.
  intros Hbefore Hx. induction Hbefore as [|y before [b Hy] _ IH]; simpl.
  - now rewrite Hx.
  - rewrite Hy. simpl. now rewrite IH.
Qed.

(** *** Traces *)

(** [m] only appends events that satisfy [R] to the trace, whether it
    returns or raises. *)
Definition appends {A} (R : event -> Prop) (m : IO A) : Prop :=
  forall t, exists evs, snd (m t) = t ++ evs /\ Forall R evs.

Lemma appends_ret {A} (R : event -> Prop) (a : A) : appends R (io_ret a).
Proof. intros t. exists []. simpl. now rewrite app_nil_r. Qed.

Lemma appends_lift {A} (R : event -> Prop) (r : result A) : appends R (io_lift r).
Proof. intros t. exists []. simpl. now rewrite app_nil_r. Qed.

Lemma appends_emit (R : event -> Prop) (e : event) : R e -> appends R (emit e).
Proof. intros He t. exists [e]. simpl. auto. Qed.

Lemma appends_bind {A B} (R : event -> Prop) (m : IO A) (f : A -> IO B) :
  appends R m -> (forall a, appends R (f a)) -> appends R (io_bind m f).
Proof.
  intros Hm Hf t. unfold io_bind. destruct (Hm t) as (evs & Ht & Hevs).
  destruct (m t) as [[a|e] t1]; simpl in Ht; subst t1.
  - destruct (Hf a (t ++ evs)) as (evs' & Ht' & Hevs').
    exists (evs ++ evs'). rewrite Ht', app_assoc. split; [reflexivity|].
    apply Forall_app. auto.
  - exists evs. auto.
Qed.

Lemma appends_bind_lift {A B} (R : event -> Prop) (r : result A) (f : A -> IO B) :
  (forall a, r = Ok a -> appends R (f a)) -> appends R (io_bind (io_lift r) f).
Proof.
  intros Hf t. unfold io_bind, io_lift. destruct r as [a|e].
  - apply (Hf a eq_refl).
  - exists []. simpl. now rewrite app_nil_r.
Qed.

Lemma appends_for {A} (R : event -> Prop) (l : list A) (body : A -> IO unit) :
  (forall x, In x l -> appends R (body x)) -> appends R (io_for l body).
Proof.
  induction l as [|x l IH]; intros Hbody; simpl.
  - apply appends_ret.
  - apply appends_bind; [apply Hbody; now left|].
    intros _. apply IH. intros y Hy. apply Hbody. now right.
Qed.

(** The command lines run in a trace, in order. *)
Definition commands (t : list event) : list (list string) :=
  flat_map (fun e => match e with Run cmd => [cmd] | _ => [] end) t.

Lemma commands_app (t1 t2 : list event) : commands (t1 ++ t2) = commands t1 ++ commands t2.
Proof. apply flat_map_app. Qed.

Lemma io_bind_Ok {A B} (m : IO A) (f : A -> IO B) (t t' : list event) (b : B) :
  io_bind m f t = (Ok b, t') ->
  exists a t1, m t = (Ok a, t1) /\ f a t1 = (Ok b, t').
Proof.
  unfold io_bind. destruct (m t) as [[a|e] t1]; [eauto | discriminate].
Qed.

(** A loop that completes ran the commands of its iterations, in order. *)
Lemma io_for_commands {A} (l : list A) (body : A -> IO unit) (C : A -> list (list string)) :
  (forall x t t', In x l -> body x t = (Ok tt, t') -> commands t' = commands t ++ C x) ->
  forall t t', io_for l body t = (Ok tt, t') ->
               commands t' = commands t ++ flat_map C l.
Proof.
  induction l as [|x l IH]; intros Hbody t t'; simpl.
  - intros [= <-]. now rewrite app_nil_r.
  - intros H. apply io_bind_Ok in H. destruct H as ([] & t1 & Hx & Hl).
    rewrite (IH (fun y u u' Hy => Hbody y u u' (or_intror Hy)) _ _ Hl).
    rewrite (Hbody x t t1 (or_introl eq_refl) Hx). now rewrite app_assoc.
Qed.

Lemma mapM_exists {A B} (f : A -> result B) (R : A -> B -> Prop) (l : list A) :
  (forall x, In x l -> exists y, f x = Ok y /\ R x y) ->
  exists l', mapM f l = Ok l' /\ Forall2 R l l'.
Proof.
  induction l as [|x l IH]; intros H; simpl.
  - exists []. split; [reflexivity | constructor].
  - destruct (H x (or_introl eq_refl)) as (y & Hy & Hxy).
    destruct (IH (fun z Hz => H z (or_intror Hz))) as (l' & Hl' & Hall).
    exists (y :: l'). rewrite Hy, Hl'. simpl. split; [reflexivity | now constructor].
Qed.

(** The lines printed on standard output in a trace, in order. *)
Definition printed (t : list event) : list string :=
  flat_map (fun e => match e with PrintStdout line => [line] | _ => [] end) t.

Lemma printed_app (t1 t2 : list event) : printed (t1 ++ t2) = printed t1 ++ printed t2.
Proof. apply flat_map_app. Qed.

(** A loop that completes printed the lines of its iterations, in order. *)
Lemma io_for_printed {A} (l : list A) (body : A -> IO unit) (C : A -> list string) :
  (forall x t t', In x l -> body x t = (Ok tt, t') -> printed t' = printed t ++ C x) ->
  forall t t', io_for l body t = (Ok tt, t') ->
               printed t' = printed t ++ flat_map C l.
Proof.
  induction l as [|x l IH]; intros Hbody t t'; simpl.
  - intros [= <-]. now rewrite app_nil_r.
  - intros H. apply io_bind_Ok in H. destruct H as ([] & t1 & Hx & Hl).
    rewrite (IH (fun y u u' Hy => Hbody y u u' (or_intror Hy)) _ _ Hl).
    rewrite (Hbody x t t1 (or_introl eq_refl) Hx). now rewrite app_assoc.
Qed.

(** Every iteration of a loop that completes has completed. *)
Lemma io_for_Ok_each {A} (l : list A) (body : A -> IO unit) (t t' : list event) :
  io_for l body t = (Ok tt, t') ->
  forall x, In x l -> exists u u', body x u = (Ok tt, u').
Proof.
  revert t; induction l as [|y l IH]; intros t; simpl; [intros _ x []|].
  intros H. apply io_bind_Ok in H. destruct H as ([] & t1 & Hy & Hl).
  intros x [<-|Hx]; [eauto | eapply IH; eassumption].
Qed.

Lemma mapM_raises {A B} (f : A -> result B) (l : list A) (x : A) :
  In x l -> (exists e, f x = Raise e) -> exists e, mapM f l = Raise e.
Proof.
  induction l as [|y l IH]; [intros []|]. intros Hin Hx. simpl.
  destruct (f y) as [b|e] eqn:E; simpl; [|eauto].
  destruct Hin as [->|Hin].
  - destruct Hx as [e He]. congruence.
  - destruct (IH Hin Hx) as [e ->]. simpl. eauto.
Qed.

End Py.

Declare Scope py_scope.
Notation "x <- m ;; k" := (Py.bind m (fun x => k))
  (at level 61, m at next level, right associativity) : py_scope.
Notation "x <-- m ;; k" := (Py.io_bind m (fun x => k))
  (at level 61, m at next level, right associativity) : py_scope.
Local Open Scope py_scope.

(* ================================================================== *)
(** * resolve_urls.py                                                  *)
(* ================================================================== *)

Module resolve_urls.
Import Py.

Definition URL : Type := SplitResult.
Definition RepoID : Type := string.

(** [Mapping[str, str]]: the attributes of one repository section, as the
    section proxy of the parser presents them: the options of the section
    and of [DEFAULT] under their (lower-cased) names, each with what
    reading it gives, the interpolated value or the exception
    interpolation raises on it ([InterpolationSyntaxError] for a stray
    [%], [InterpolationMissingOptionError], ...). *)
Definition Attrs : Type := list (string * result string).

Record RepoSet : Type := { _mapping : list (RepoID * Attrs) }.

(** An entry of the repositories directory: its file name, whether it is
    a regular file, and what a [ConfigParser] that read it yields from
    [items()] (the [DEFAULT] section included), or the exception the
    parser raises on it. *)
Record DirEntry : Type :=
  { entry_name : string;
    is_file : bool;
    config_items : result (list (string * Attrs)) }.

(** The directory [reposdir]: its entries and its resolved absolute path. *)
Record Dir : Type := { iterdir : list DirEntry; resolve : string }.

Definition DEFAULTSECT : string := "DEFAULT".

(** [attrs[key]]: [KeyError] for an option the section does not have,
    otherwise the interpolated value, or the exception of the
    interpolation. *)
Definition getitem (attrs : Attrs) (key : string) : result string :=
  match dict_get String.eqb key attrs with
  | Some v => v
  | None => Raise (KeyError key)
  end.

(** [RepoSet.parse_dir] *)
Definition parse_dir (reposdir : Dir) : result RepoSet :=
  repos <- foldM
    (fun repos f =>
       if is_file f && (suffix (entry_name f) =? ".repo") then
         items <- config_items f ;;
         let repos_in_file :=
           filter (fun sa => negb (fst sa =? DEFAULTSECT)) items in
         Ok (dict_update String.eqb repos repos_in_file)
       else Ok repos)
    (iterdir reposdir) [] ;;
  Ok {| _mapping := repos |}.

Inductive str_or_URL : Type :=
| Str (s : string)
| Url (u : URL).

(** The test of the loop of [map_url_to_repoid]. *)
Definition url_matches (package_url baseurl : URL) : bool :=
  (scheme package_url =? scheme baseurl)
  && (netloc package_url =? netloc baseurl)
  && is_relative_to (Path (path package_url)) (Path (path baseurl)).

(** The loop of [map_url_to_repoid]: the first item that passes the test. *)
Fixpoint first_match (package_url : URL) (items : list (URL * RepoID))
    : option RepoID :=
  match items with
  | [] => None
  | (baseurl, repoid) :: items' =>
      if url_matches package_url baseurl then Some repoid
      else first_match package_url items'
  end.

(** [defaultdict(list)]: [d[k].append(v)] *)
Fixpoint dd_append (k : string) (v : string) (d : list (string * list string))
    : list (string * list string) :=
  match d with
  | [] => [(k, [v])]
  | (k', vs) :: d' =>
      if k' =? k then (k', vs ++ [v]) :: d' else (k', vs) :: dd_append k v d'
  end.

(** The specification's wording of the path test: the path [p] is equal
    to [q] or nested under it, whole path segments being compared (so that
    [/repo/x86_64] is not under [/repo/x86]). *)
Definition equal_or_nested_under (p q : PurePosixPath) : Prop :=
  root p = root q /\ exists segs, tail p = tail q ++ segs.

(** The events of a trace that run a process. *)
Definition is_run (e : event) : bool :=
  match e with Run _ => true | _ => false end.

(** ** The loop of [map_url_to_repoid] *)

Lemma url_matches_spec (u b : URL) :
  url_matches u b = true <->
  scheme u = scheme b /\ netloc u = netloc b
  /\ equal_or_nested_under (Path (path u)) (Path (path b)).
Proof.
  unfold url_matches, equal_or_nested_under.
  rewrite !andb_true_iff, !String.eqb_eq, is_relative_to_spec. tauto.
Qed.

Lemma first_match_Some (u : URL) (m : list (URL * RepoID)) (r : RepoID) :
  first_match u m = Some r <->
  exists before b after,
    m = before ++ (b, r) :: after /\ url_matches u b = true
    /\ forall b' r', In (b', r') before -> url_matches u b' = false.
Proof.
  induction m as [|[b0 r0] m IH]; simpl.
  - split; [discriminate | intros (before & b & after & H & _)].
    destruct before; discriminate.
  - destruct (url_matches u b0) eqn:E0.
    + split.
      * intros [= ->]. exists [], b0, m. simpl. intuition.
      * intros (before & b & after & H & Hb & Hbefore).
        destruct before as [|[b1 r1] before]; simpl in H.
        -- congruence.
        -- injection H as -> -> _. rewrite (Hbefore b1 r1) in E0 by (left; reflexivity).
           discriminate.
    + rewrite IH. split.
      * intros (before & b & after & -> & Hb & Hbefore).
        exists ((b0, r0) :: before), b, after. simpl. repeat split; auto.
        intros b' r' [[= <- <-]|Hin]; eauto.
      * intros (before & b & after & H & Hb & Hbefore).
        destruct before as [|[b1 r1] before]; simpl in H.
        -- congruence.
        -- injection H as -> -> ->. exists before, b, after. repeat split; auto.
           intros; apply Hbefore with r'; right; assumption.
Qed.

Lemma first_match_None (u : URL) (m : list (URL * RepoID)) :
  first_match u m = None <->
  forall b r, In (b, r) m -> url_matches u b = false.
Proof.
  induction m as [|[b0 r0] m IH]; simpl.
  - split; [intros _ b r [] | reflexivity].
  - destruct (url_matches u b0) eqn:E0.
    + split; [discriminate | intros H].
      rewrite (H b0 r0) in E0 by (left; reflexivity). discriminate.
    + rewrite IH. split.
      * intros H b r [[= <- <-]|Hin]; eauto.
      * intros H b r Hin. apply H with r. right; assumption.
Qed.

(** ** [defaultdict(list)] *)

Lemma dd_append_keys (k v : string) (d : list (string * list string)) (k' : string) :
  In k' (map fst (dd_append k v d)) <-> k' = k \/ In k' (map fst d).
Proof.
  induction d as [|[k0 vs0] d IH]; simpl.
  - split; [intros [<-|[]]; auto | intros [->|[]]; auto].
  - destruct (String.eqb_spec k0 k) as [->|Hne]; simpl.
    + split; [intros [<-|H]; auto | intros [->|[<-|H]]; auto].
    + rewrite IH. split; [intros [<-|[->|H]]; auto | intros [->|[<-|H]]; auto].
Qed.

Lemma dd_append_NoDup (k v : string) (d : list (string * list string)) :
  NoDup (map fst d) -> NoDup (map fst (dd_append k v d)).
Proof.
  induction d as [|[k0 vs0] d IH]; simpl; intros Hnd.
  - constructor; [intros [] | constructor].
  - inversion Hnd as [|? ? Hnotin Hnd']; subst.
    destruct (String.eqb_spec k0 k) as [->|Hne]; simpl.
    + constructor; assumption.
    + constructor; [|apply IH, Hnd'].
      rewrite dd_append_keys. intros [->|H]; [now apply Hne | now apply Hnotin].
Qed.

(** After [d[k].append(v)] the list of [k] is its former list, or the
    empty list, followed by [v]; the other keys keep their lists. *)
Lemma dd_append_In_iff (k v : string) (d : list (string * list string))
    (k' : string) (vs' : list string) :
  NoDup (map fst d) ->
  In (k', vs') (dd_append k v d)
  <-> (k' <> k /\ In (k', vs') d)
      \/ (k' = k /\ ((exists vs, In (k, vs) d /\ vs' = vs ++ [v])
                     \/ (~ In k (map fst d) /\ vs' = [v]))).
Proof.
  induction d as [|[k0 vs0] d IH]; simpl; intros Hnd.
  - split.
    + intros [[= <- <-]|[]]. right. split; [reflexivity|]. right. auto.
    + intros [[_ []]|[-> [(vs & [] & _)|[_ ->]]]]. now left.
  - inversion Hnd as [|? ? Hnotin Hnd']; subst.
    destruct (String.eqb_spec k0 k) as [->|Hne]; simpl.
    + split.
      * intros [[= <- <-]|H].
        -- right. split; [reflexivity|]. left. exists vs0. auto.
        -- left. split; [|auto]. intros ->. apply Hnotin.
           apply (in_map fst) in H. exact H.
      * intros [[Hne [[= <- <-]|H]]|[-> [(vs & [[= <-]|H] & ->)|[Hno _]]]]; auto.
        -- now destruct Hne.
        -- exfalso. apply Hnotin. apply (in_map fst) in H. exact H.
        -- exfalso. apply Hno. now left.
    + rewrite (IH Hnd'). split.
      * intros [[= <- <-]|[[Hk H]|[-> [(vs & H & ->)|[Hno ->]]]]]; auto.
        -- right. split; [reflexivity|]. left. exists vs. auto.
        -- right. split; [reflexivity|]. right. split; [|reflexivity].
           intros [Heq|H]; [now apply Hne | now apply Hno].
      * intros [[Hk [H|H]]|[-> [(vs & [[= -> <-]|H] & ->)|[Hno ->]]]]; auto.
        -- now destruct Hne.
        -- right. right. split; [reflexivity|]. left. exists vs. auto.
        -- right. right. split; [reflexivity|]. right. split; [|reflexivity].
           intros H. apply Hno. now right.
Qed.

(** ** [RepoSet.parse_dir] *)

(** The test of the loop of [parse_dir], and the sections it takes from an
    entry that passes it. *)
Definition is_repo_file (f : DirEntry) : bool :=
  is_file f && (suffix (entry_name f) =? ".repo").

Definition sections_of (f : DirEntry) : list (RepoID * Attrs) :=
  if is_repo_file f then
    match config_items f with
    | Ok items => filter (fun sa => negb (fst sa =? DEFAULTSECT)) items
    | Raise _ => []
    end
  else [].

(** The sections of the directory, in the order [parse_dir] meets them. *)
Definition sections_read (reposdir : Dir) : list (RepoID * Attrs) :=
  flat_map sections_of (iterdir reposdir).

Definition parse_dir_step (repos : list (RepoID * Attrs)) (f : DirEntry)
    : result (list (RepoID * Attrs)) :=
  if is_file f && (suffix (entry_name f) =? ".repo") then
    items <- config_items f ;;
    let repos_in_file :=
      filter (fun sa => negb (fst sa =? DEFAULTSECT)) items in
    Ok (dict_update String.eqb repos repos_in_file)
  else Ok repos.

Lemma parse_dir_unfold (reposdir : Dir) :
  parse_dir reposdir
  = (repos <- foldM parse_dir_step (iterdir reposdir) [] ;; Ok {| _mapping := repos |}).
Proof. reflexivity. Qed.

Lemma parse_dir_loop (l : list DirEntry) (acc acc' : list (RepoID * Attrs)) :
  foldM parse_dir_step l acc = Ok acc' ->
  acc' = dict_update String.eqb acc (flat_map sections_of l).
Proof.
  revert acc; induction l as [|f l IH]; intros acc; simpl.
  - intros [= <-]. reflexivity.
  - rewrite dict_update_app. unfold parse_dir_step at 1, sections_of at 1, is_repo_file.
    destruct (is_file f && (suffix (entry_name f) =? ".repo")); simpl.
    + destruct (config_items f) as [items|]; simpl; [|discriminate]. apply IH.
    + apply IH.
Qed.

Lemma parse_dir_loop_ok (l : list DirEntry) (acc : list (RepoID * Attrs)) :
  (forall f, In f l -> is_repo_file f = true -> exists items, config_items f = Ok items)
  <-> exists acc', foldM parse_dir_step l acc = Ok acc'.
Proof.
  revert acc; induction l as [|f l IH]; intros acc; simpl.
  - split; [eauto | intros _ f []].
  - unfold parse_dir_step at 1. fold (is_repo_file f).
    destruct (is_repo_file f) eqn:Hf; simpl.
    + destruct (config_items f) as [items|e] eqn:Hc; simpl.
      * rewrite <- IH. split.
        -- intros H g Hg. apply H. now right.
        -- intros H g [<-|Hg]; [eauto | now apply H].
      * split.
        -- intros H. destruct (H f (or_introl eq_refl) Hf) as [items Hi]. congruence.
        -- intros [acc' H]. discriminate.
    + rewrite <- IH. split.
      * intros H g Hg. apply H. now right.
      * intros H g [<-|Hg]; [congruence | now apply H].
Qed.

(** X5.  [RepoSet.parse_dir] returns a catalog exactly when the parser
    accepts every regular file of the directory whose name ends in
    [.repo]; the other entries are never read, whatever they hold. *)
Theorem parse_dir_succeeds_iff_repo_files_parse (reposdir : Dir) :
  (forall f, In f (iterdir reposdir) -> is_file f = true ->
             suffix (entry_name f) = ".repo" ->
             exists items, config_items f = Ok items)
  <-> exists repos, parse_dir reposdir = Ok repos.
Proof.
  rewrite parse_dir_unfold. split.
  - intros H.
    destruct (proj1 (parse_dir_loop_ok (iterdir reposdir) [])) as [acc Hacc].
    + intros f Hin Hf. unfold is_repo_file in Hf. apply andb_true_iff in Hf.
      destruct Hf as [Hfile Hsuf]. apply String.eqb_eq in Hsuf. now apply H.
    + rewrite Hacc. simpl. eauto.
  - intros [repos Hrepos] f Hin Hfile Hsuf.
    destruct (foldM parse_dir_step (iterdir reposdir) []) as [acc|] eqn:E;
      [|discriminate].
    apply (proj2 (parse_dir_loop_ok (iterdir reposdir) []) (ex_intro _ acc E) f Hin).
    unfold is_repo_file. rewrite Hfile, Hsuf. reflexivity.
Qed.

(** X6.  In the catalog returned by [RepoSet.parse_dir] the repository
    identifiers are pairwise distinct, none is [DEFAULT], and each one
    has the attributes of its last definition in the order the files are
    read: a section defined again by a later file is overwritten. *)
Theorem parse_dir_last_definition_wins (reposdir : Dir) (repos : RepoSet) :
  parse_dir reposdir = Ok repos ->
  NoDup (map fst (_mapping repos))
  /\ ~ In DEFAULTSECT (map fst (_mapping repos))
  /\ forall repoid attrs,
       In (repoid, attrs) (_mapping repos)
       <-> last_binding (sections_read reposdir) repoid attrs.
Proof.
  rewrite parse_dir_unfold.
  destruct (foldM parse_dir_step (iterdir reposdir) []) as [acc|] eqn:E; simpl;
    [|discriminate].
  intros [= <-]. simpl. apply parse_dir_loop in E. subst acc.
  destruct (dict_update_spec String.eqb String.eqb_eq (sections_read reposdir) [])
    as [Hnd Hin]; [constructor|].
  fold (sections_read reposdir).
  assert (Hiff : forall repoid attrs,
            In (repoid, attrs) (dict_update String.eqb [] (sections_read reposdir))
            <-> last_binding (sections_read reposdir) repoid attrs).
  { intros repoid attrs. rewrite Hin. split; [intros [H|[_ []]]; exact H | auto]. }
  split; [exact Hnd|]. split; [|exact Hiff].
  intros Hdef. apply in_map_iff in Hdef. destruct Hdef as ([k attrs] & Hk & Hkv).
  simpl in Hk. subst k. apply Hiff in Hkv.
  destruct Hkv as (before & after & Heq & _).
  assert (Hread : In (DEFAULTSECT, attrs) (sections_read reposdir)).
  { rewrite Heq. apply in_elt. }
  unfold sections_read in Hread. apply in_flat_map in Hread.
  destruct Hread as (f & _ & Hf). unfold sections_of in Hf.
  destruct (is_repo_file f); [|contradiction].
  destruct (config_items f); [|contradiction].
  apply filter_In in Hf. destruct Hf as [_ Hf]. cbn [fst] in Hf.
  rewrite String.eqb_refl in Hf. discriminate.
Qed.

Section Library.
Set Default Proof Using "Type".

(** [urllib.parse.urlsplit], and [SplitResult.geturl]. *)
Variable urlsplit : string -> result URL.
Variable geturl : URL -> string.
(** The outcome of running a command line as a child process. *)
Variable run_process : list string -> ProcessOutput.
(** [str.splitlines], [str.split()], [repr] and [platform.machine()]. *)
Variable splitlines : string -> list string.
Variable split : string -> list string.
Variable repr : string -> string.
Variable platform_machine : string.

(** [RepoSet.map_expanded_baseurls] *)
Definition map_expanded_baseurls (self : RepoSet) (arches : list string)
    : result (list (URL * RepoID)) :=
  foldM
    (fun mapping arch =>
       foldM
         (fun mapping (item : RepoID * Attrs) =>
            let (repoid, attrs) := item in
            tmpl <- getitem attrs "baseurl" ;;
            let baseurl := safe_substitute tmpl arch in
            key <- urlsplit baseurl ;;
            Ok (dict_set SplitResult_eqb key repoid mapping))
         (_mapping self) mapping)
    arches [].

(** [subprocess.run(cmd, capture_output=True, text=True)] *)
Definition subprocess_run (cmd : list string) : IO CompletedProcess :=
  _ <-- emit (Run cmd) ;;
  let out := run_process cmd in
  io_ret {| args := cmd; returncode := exit_status out;
            stdout := captured_stdout out; stderr := captured_stderr out |}.

Definition no_match_error (package_url : URL) : exn :=
  ValueError ("Couldn't find matching baseurl for " ++ geturl package_url)%string.

(** The first two lines of [map_url_to_repoid]. *)
Definition as_url (package_url : str_or_URL) : result URL :=
  match package_url with
  | Str s => urlsplit s
  | Url u => Ok u
  end.

(** [map_url_to_repoid] *)
Definition map_url_to_repoid (package_url : str_or_URL)
    (baseurls_to_repoids : list (URL * RepoID)) : result RepoID :=
  package_url <- as_url package_url ;;
  match first_match package_url baseurls_to_repoids with
  | Some repoid => Ok repoid
  | None => Raise (no_match_error package_url)
  end.

(** The command line of [resolve_urls]. *)
Definition dnf_cmd (packages : list string) (reposdir : Dir)
    (repoid arch : string) (source : bool) : list string :=
  let cmd := ["dnf"; ("--setopt=reposdir=" ++ resolve reposdir)%string;
              ("--forcearch=" ++ arch)%string; "download"; "--url"] in
  let cmd := if negb source then cmd ++ [("--repo=" ++ repoid)%string]
             else cmd ++ ["--source"] in
  cmd ++ packages.

(** [proc.check_returncode()] *)
Definition check_returncode (proc : CompletedProcess) : IO unit :=
  if (returncode proc =? 0)%Z then io_ret tt
  else io_lift (Raise (CalledProcessError (returncode proc) (args proc))).

Definition srpm_warning (repoid : string) : string :=
  "warning: couldn't get any SRPMs for the RPMs from " ++ repr repoid.

(** The last two lines of [resolve_urls]. *)
Definition urls_of_stdout (out : string) : result (list string) :=
  filterM (fun url => u <- urlsplit url ;; Ok (str_bool (scheme u)))
          (splitlines out).

(** [resolve_urls] *)
Definition resolve_urls (packages : list string) (reposdir : Dir)
    (repoid arch : string) (source : bool) : IO (list string) :=
  let cmd := dnf_cmd packages reposdir repoid arch source in
  proc <-- subprocess_run cmd ;;
  _ <-- (if negb (returncode proc =? 0)%Z then
           _ <-- (if source then emit (PrintStderr (srpm_warning repoid))
                  else io_ret tt) ;;
           _ <-- emit (PrintStderr (stderr proc)) ;;
           if negb source then check_returncode proc else io_ret tt
         else io_ret tt) ;;
  io_lift (urls_of_stdout (stdout proc)).

(** [parse_packages_per_repoid], on the lines of the input file. *)
Definition parse_packages_per_repoid (input_file : list string)
    : result (list (RepoID * list string)) :=
  foldM
    (fun packages_per_repoid line =>
       match split line with
       | [package; repoid] =>
           let repoid := rstrip ")" (lstrip "(" repoid) in
           Ok (dd_append repoid package packages_per_repoid)
       | [] | [_] => Raise (ValueError "not enough values to unpack")
       | _ => Raise (ValueError "too many values to unpack")
       end)
    input_file [].

(** [main], from the parsed command line: the lines of [input_file],
    [--reposdir] and the [--arch] options ([None] when there is none). *)
Definition main (input_file : list string) (reposdir : Dir)
    (args_arch : option (list string)) : IO unit :=
  let arches := match args_arch with
                | Some (a :: l) => a :: l
                | _ => [platform_machine]
                end in
  packages_per_repoid <-- io_lift (parse_packages_per_repoid input_file) ;;
  baseurls_to_repoids <--
    io_lift (repos <- parse_dir reposdir ;; map_expanded_baseurls repos arches) ;;
  io_for (sorted str_ltb arches) (fun arch =>
    io_for (sorted (pair_ltb String.eqb str_ltb (list_ltb String.eqb str_ltb))
                   packages_per_repoid)
      (fun item : RepoID * list string =>
         let (repoid, packages) := item in
         urls <-- resolve_urls packages reposdir repoid arch false ;;
         source_urls <-- resolve_urls packages reposdir repoid arch true ;;
         io_for (sorted str_ltb urls ++ sorted str_ltb source_urls) (fun url =>
           repoid <-- io_lift (map_url_to_repoid (Str url) baseurls_to_repoids) ;;
           emit (PrintStdout (arch ++ " " ++ repoid ++ " " ++ url)%string)))).

(** ** Properties of [map_url_to_repoid] *)

(** C1 (amended).  A URL passes the test of [map_url_to_repoid] against
    a base URL if and only if the schemes are equal, the network
    locations are equal, and the URL's path is equal to or nested under
    the base URL's path by whole path segments.  Consequently a URL that
    shares scheme and network location with a registered base URL and
    whose path is nested under its path is attributed to that base URL's
    repository identifier, provided no base URL registered before it
    passes the test as well (the first match wins). *)
Theorem map_url_to_repoid_attributes_first_match
    (package_url : str_or_URL) (u b : URL) (r : RepoID)
    (before after : list (URL * RepoID)) :
  as_url package_url = Ok u ->
  (forall b' r', In (b', r') before -> url_matches u b' = false) ->
  (url_matches u b = true <->
     scheme u = scheme b /\ netloc u = netloc b
     /\ equal_or_nested_under (Path (path u)) (Path (path b)))
  /\ (scheme u = scheme b -> netloc u = netloc b ->
      equal_or_nested_under (Path (path u)) (Path (path b)) ->
      map_url_to_repoid package_url (before ++ (b, r) :: after) = Ok r).
Proof.
  intros Hu Hbefore. split; [apply url_matches_spec|].
  intros Hs Hn Hp. unfold map_url_to_repoid. rewrite Hu. simpl.
  assert (Hm : first_match u (before ++ (b, r) :: after) = Some r).
  { apply first_match_Some. exists before, b, after. repeat split; auto.
    apply url_matches_spec. auto. }
  now rewrite Hm.
Qed.

(** C2 (amended).  For a download URL that matches more than one
    configured base URL, [map_url_to_repoid] returns the repository
    identifier of the first matching base URL in the iteration
    (insertion) order of the mapping, whatever the lengths of the
    matching path prefixes. *)
Theorem map_url_to_repoid_first_of_several
    (package_url : str_or_URL) (u b1 b2 : URL) (r1 r2 : RepoID)
    (m : list (URL * RepoID)) :
  as_url package_url = Ok u ->
  In (b1, r1) m -> In (b2, r2) m -> b1 <> b2 ->
  url_matches u b1 = true -> url_matches u b2 = true ->
  exists before b r after,
    m = before ++ (b, r) :: after
    /\ url_matches u b = true
    /\ (forall b' r', In (b', r') before -> url_matches u b' = false)
    /\ map_url_to_repoid package_url m = Ok r.
Proof.
  intros Hu H1 _ _ Hm1 _. unfold map_url_to_repoid. rewrite Hu. simpl.
  destruct (first_match u m) as [r|] eqn:E.
  - destruct (proj1 (first_match_Some u m r) E) as (before & b & after & Hm & Hb & Hbefore).
    exists before, b, r, after. auto.
  - rewrite (proj1 (first_match_None u m) E b1 r1 H1) in Hm1. discriminate.
Qed.

(** C8.  [map_url_to_repoid] raises its [ValueError] ("Couldn't find
    matching baseurl") for every URL that matches no configured base
    URL, in particular when the URL's network location differs from
    that of every configured base URL; and an identifier it returns is
    always the one registered for a base URL the URL matches, never a
    default. *)
Theorem map_url_to_repoid_no_match_raises
    (package_url : str_or_URL) (u : URL) (m : list (URL * RepoID)) :
  as_url package_url = Ok u ->
  ((forall b r, In (b, r) m -> url_matches u b = false) ->
     map_url_to_repoid package_url m = Raise (no_match_error u))
  /\ ((forall b r, In (b, r) m -> netloc u <> netloc b) ->
     map_url_to_repoid package_url m = Raise (no_match_error u))
  /\ (forall r, map_url_to_repoid package_url m = Ok r ->
     exists b, In (b, r) m /\ url_matches u b = true).
Proof.
  intros Hu. unfold map_url_to_repoid. rewrite Hu. simpl.
  assert (Hnone : (forall b r, In (b, r) m -> url_matches u b = false) ->
                  match first_match u m with
                  | Some repoid => Ok repoid
                  | None => Raise (no_match_error u)
                  end = Raise (no_match_error u)).
  { intros H. apply first_match_None in H. now rewrite H. }
  split; [exact Hnone | split].
  - intros H. apply Hnone. intros b r Hin. specialize (H b r Hin).
    unfold url_matches. apply String.eqb_neq in H. rewrite H.
    now rewrite andb_false_r.
  - intros r. destruct (first_match u m) as [r'|] eqn:E; [|discriminate].
    intros [= ->]. apply first_match_Some in E.
    destruct E as (before & b & after & -> & Hb & _).
    exists b. split; [apply in_elt | exact Hb].
Qed.

(** The mapping without the base URLs whose path component is empty. *)
Definition with_path (m : list (URL * RepoID)) : list (URL * RepoID) :=
  filter (fun item => negb (path (fst item) =? "")) m.

(** C10 (amended).  A base URL whose path component is empty never matches
    a URL whose path starts with a slash, even with equal scheme and
    network location: the empty path parses as a relative path.  Such a
    base URL is a dead entry of the mapping: for a package URL with such a
    path, [map_url_to_repoid] answers as it does on the mapping without
    the base URLs of empty path.  The package URL gets the
    no-matching-baseurl error exactly when no base URL of non-empty path
    matches it; when one does, it is attributed to the first such
    repository and nothing is raised. *)
Theorem empty_base_path_never_matches
    (package_url : str_or_URL) (u : URL) (m : list (URL * RepoID)) :
  as_url package_url = Ok u ->
  startswith (path u) "/" = true ->
  (forall b, path b = "" -> url_matches u b = false)
  /\ map_url_to_repoid package_url m = map_url_to_repoid package_url (with_path m)
  /\ (map_url_to_repoid package_url m = Raise (no_match_error u)
      <-> forall b r, In (b, r) m -> path b <> "" -> url_matches u b = false).
Proof.
  intros Hu Habs.
  assert (H0 : forall b, path b = "" -> url_matches u b = false).
  { intros b Hb. destruct (url_matches u b) eqn:E; [|reflexivity].
    apply url_matches_spec in E. destruct E as (_ & _ & Hr & _).
    rewrite Hb, Path_empty in Hr. simpl in Hr.
    destruct (root_Path_absolute _ Habs) as [H|H]; rewrite H in Hr; discriminate. }
  split; [exact H0|]. unfold map_url_to_repoid. rewrite Hu. simpl. split.
  - assert (Hf : first_match u m = first_match u (with_path m)).
    { induction m as [|[b r] m IH]; simpl; [reflexivity|].
      destruct (String.eqb_spec (path b) "") as [Hb|Hb]; simpl.
      - now rewrite (H0 b Hb).
      - now rewrite IH. }
    now rewrite Hf.
  - split.
    + intros Hraise b r Hin _.
      destruct (first_match u m) eqn:E; [discriminate|].
      exact (proj1 (first_match_None u m) E b r Hin).
    + intros Hall.
      assert (Hn : first_match u m = None).
      { apply first_match_None. intros b r Hin.
        destruct (String.eqb_spec (path b) "") as [Hb|Hb].
        - now apply H0.
        - now apply (Hall b r). }
      now rewrite Hn.
Qed.

(** ** Properties of [resolve_urls] *)

(** C6 (amended).  When the external tool exits non-zero: a call for
    binary packages ([source = false]) prints the tool's diagnostics and
    raises [CalledProcessError]; a call for source artifacts
    ([source = true]) prints a warning and the tool's diagnostics to the
    diagnostic stream, does not raise on account of the failure, and goes
    on to return the URL lines of whatever the tool wrote to its standard
    output, as after a successful run. *)
Theorem resolve_urls_on_failure
    (packages : list string) (reposdir : Dir) (repoid arch : string)
    (source : bool) (t : list event) :
  exit_status (run_process (dnf_cmd packages reposdir repoid arch source)) <> 0%Z ->
  resolve_urls packages reposdir repoid arch source t =
    let cmd := dnf_cmd packages reposdir repoid arch source in
    let out := run_process cmd in
    if source then
      (urls_of_stdout (captured_stdout out),
       t ++ [Run cmd] ++ [PrintStderr (srpm_warning repoid)]
         ++ [PrintStderr (captured_stderr out)])
    else
      (Raise (CalledProcessError (exit_status out) cmd),
       t ++ [Run cmd] ++ [PrintStderr (captured_stderr out)]).
Proof.
  intros Hrc. apply Z.eqb_neq in Hrc.
  unfold resolve_urls, subprocess_run, check_returncode, io_bind, io_ret, io_lift, emit.
  destruct source; simpl in *; rewrite !Hrc; simpl; now rewrite <- !app_assoc.
Qed.

(** ** Properties of [RepoSet] *)




(** X1.  When the external tool exits with status 0, [resolve_urls] runs
    it once, prints nothing, and returns the lines of its standard output
    that split with a non-empty scheme. *)
Theorem resolve_urls_on_success
    (packages : list string) (reposdir : Dir) (repoid arch : string)
    (source : bool) (t : list event) :
  exit_status (run_process (dnf_cmd packages reposdir repoid arch source)) = 0%Z ->
  resolve_urls packages reposdir repoid arch source t =
    (urls_of_stdout
       (captured_stdout (run_process (dnf_cmd packages reposdir repoid arch source))),
     t ++ [Run (dnf_cmd packages reposdir repoid arch source)]).
Proof.
  intros Hrc. unfold resolve_urls, subprocess_run, io_bind, io_ret, io_lift, emit.
  simpl. rewrite Hrc. reflexivity.
Qed.

(** X2.  Every base URL of the mapping returned by
    [RepoSet.map_expanded_baseurls] is the split of the [baseurl] of the
    repository it is registered for, expanded for one of the requested
    architectures. *)
Theorem map_expanded_baseurls_provenance
    (repos : RepoSet) (arches : list string) (m : list (URL * RepoID))
    (b : URL) (r : RepoID) :
  map_expanded_baseurls repos arches = Ok m -> In (b, r) m ->
  exists arch attrs tmpl,
    In arch arches /\ In (r, attrs) (_mapping repos)
    /\ getitem attrs "baseurl" = Ok tmpl
    /\ urlsplit (safe_substitute tmpl arch) = Ok b.
Proof.
  intros Hm Hin. unfold map_expanded_baseurls in Hm.
  revert b r Hin.
  eapply (foldM_invariant _ (fun mapping => forall b r, In (b, r) mapping -> _));
    [| | exact Hm]; [|intros b r []].
  intros acc arch acc' Harch Hacc Hinner.
  eapply (foldM_invariant _ (fun mapping => forall b r, In (b, r) mapping -> _));
    [| exact Hacc | exact Hinner].
  intros acc0 [repoid attrs] acc1 Hrepo Hacc0. simpl.
  destruct (getitem attrs "baseurl") as [tmpl|] eqn:Ht; simpl; [|discriminate].
  destruct (urlsplit (safe_substitute tmpl arch)) as [key|] eqn:Hk; simpl; [|discriminate].
  intros [= <-] b r Hin. apply dict_set_In in Hin. destruct Hin as [[-> ->]|Hin].
  - exists arch, attrs, tmpl. auto.
  - apply Hacc0, Hin.
Qed.

(** ** [RepoSet.map_expanded_baseurls], continued *)

(** The base URL one repository expands to for one architecture, with the
    repository it is registered for. *)
Definition expansion (arch : string) (item : RepoID * Attrs) : result (URL * RepoID) :=
  let (repoid, attrs) := item in
  tmpl <- getitem attrs "baseurl" ;;
  key <- urlsplit (safe_substitute tmpl arch) ;;
  Ok (key, repoid).

(** The expansions of all (architecture, repository) pairs, in the order
    the two loops of [map_expanded_baseurls] visit them. *)
Definition expansions (self : RepoSet) (arches : list string)
    : result (list (URL * RepoID)) :=
  mapM (fun p => expansion (fst p) (snd p)) (list_prod arches (_mapping self)).

Lemma map_expanded_baseurls_inner
    (arch : string) (repos : list (RepoID * Attrs)) (mapping : list (URL * RepoID)) :
  foldM
    (fun mapping (item : RepoID * Attrs) =>
       let (repoid, attrs) := item in
       tmpl <- getitem attrs "baseurl" ;;
       let baseurl := safe_substitute tmpl arch in
       key <- urlsplit baseurl ;;
       Ok (dict_set SplitResult_eqb key repoid mapping))
    repos mapping
  = (pairs <- mapM (expansion arch) repos ;;
     Ok (dict_update SplitResult_eqb mapping pairs)).
Proof.
  revert mapping; induction repos as [|[repoid attrs] repos IH]; intros mapping; simpl.
  - reflexivity.
  - destruct (getitem attrs "baseurl") as [tmpl|]; simpl; [|reflexivity].
    destruct (urlsplit (safe_substitute tmpl arch)) as [key|]; simpl; [|reflexivity].
    rewrite IH. destruct (mapM (expansion arch) repos); reflexivity.
Qed.

Lemma map_expanded_baseurls_loops
    (repos : list (RepoID * Attrs)) (arches : list string) (mapping : list (URL * RepoID)) :
  foldM
    (fun mapping arch =>
       foldM
         (fun mapping (item : RepoID * Attrs) =>
            let (repoid, attrs) := item in
            tmpl <- getitem attrs "baseurl" ;;
            let baseurl := safe_substitute tmpl arch in
            key <- urlsplit baseurl ;;
            Ok (dict_set SplitResult_eqb key repoid mapping))
         repos mapping)
    arches mapping
  = (pairs <- mapM (fun p => expansion (fst p) (snd p)) (list_prod arches repos) ;;
     Ok (dict_update SplitResult_eqb mapping pairs)).
Proof.
  revert mapping; induction arches as [|arch arches IH]; intros mapping; simpl.
  - reflexivity.
  - rewrite map_expanded_baseurls_inner, mapM_app_eq, mapM_map. simpl.
    destruct (mapM (expansion arch) repos) as [p1|]; simpl; [|reflexivity].
    rewrite IH.
    destruct (mapM (fun p => expansion (fst p) (snd p)) (list_prod arches repos))
      as [p2|]; simpl; [|reflexivity].
    now rewrite dict_update_app.
Qed.

(** X7.  The mapping returned by [RepoSet.map_expanded_baseurls] has
    pairwise distinct base URLs; it holds the base URL of every
    (architecture, repository) pair, and registers each base URL for the
    repository of the last pair, in the order of the loops, that expands
    to it: a repository expanding to an already registered base URL
    silently replaces the earlier one. *)
Theorem map_expanded_baseurls_last_registration_wins
    (self : RepoSet) (arches : list string) (m : list (URL * RepoID)) :
  map_expanded_baseurls self arches = Ok m ->
  NoDup (map fst m)
  /\ exists pairs,
       expansions self arches = Ok pairs
       /\ (forall b r, In (b, r) m <-> last_binding pairs b r)
       /\ (forall arch item, In arch arches -> In item (_mapping self) ->
             exists b r, expansion arch item = Ok (b, fst item) /\ In (b, r) m).
Proof.
  unfold map_expanded_baseurls, expansions. rewrite map_expanded_baseurls_loops.
  destruct (mapM _ (list_prod arches (_mapping self))) as [pairs|] eqn:E; simpl;
    [|discriminate].
  intros [= <-].
  destruct (dict_update_spec SplitResult_eqb SplitResult_eqb_eq pairs [])
    as [Hnd Hin]; [constructor|].
  assert (Hiff : forall b r, In (b, r) (dict_update SplitResult_eqb [] pairs)
                             <-> last_binding pairs b r).
  { intros b r. rewrite Hin. split; [intros [H|[_ []]]; exact H | auto]. }
  split; [exact Hnd|]. exists pairs. split; [reflexivity|]. split; [exact Hiff|].
  intros arch item Harch Hitem.
  assert (Hprod : In (arch, item) (list_prod arches (_mapping self)))
    by now apply in_prod.
  apply mapM_Forall2 in E.
  assert (Hex : exists kv, In kv pairs /\ expansion arch item = Ok kv).
  { clear -E Hprod. induction E as [|x y l l' Hxy _ IH]; [contradiction|].
    destruct Hprod as [->|Hprod].
    - exists y. split; [now left | exact Hxy].
    - destruct (IH Hprod) as (kv & Hkv & He). exists kv. split; [now right | exact He]. }
  destruct Hex as ([b r0] & Hkv & He).
  assert (Hr0 : r0 = fst item).
  { destruct item as [repoid attrs]. simpl in *.
    destruct (getitem attrs "baseurl"); simpl in He; [|discriminate].
    destruct (urlsplit _); simpl in He; [|discriminate]. congruence. }
  subst r0.
  destruct (last_binding_exists SplitResult_eqb SplitResult_eqb_eq pairs b) as [r Hr].
  { apply (in_map fst) in Hkv. exact Hkv. }
  exists b, r. split; [exact He | now apply Hiff].
Qed.

(** ** [resolve_urls], continued *)

(** The condition of the list comprehension that ends [resolve_urls]. *)
Definition line_has_scheme (line : string) : bool :=
  match urlsplit line with
  | Ok u => str_bool (scheme u)
  | Raise _ => false
  end.

(** X8.  The URLs returned by [resolve_urls] are the lines of the tool's
    standard output that split with a non-empty scheme, in the order of
    the output; the other lines are dropped. *)
Theorem resolve_urls_returns_lines_with_scheme
    (packages : list string) (reposdir : Dir) (repoid arch : string)
    (source : bool) (t : list event) (urls : list string) :
  fst (resolve_urls packages reposdir repoid arch source t) = Ok urls ->
  urls = filter line_has_scheme
           (splitlines (captured_stdout
              (run_process (dnf_cmd packages reposdir repoid arch source))))
  /\ (source = false ->
      exit_status (run_process (dnf_cmd packages reposdir repoid arch source)) = 0%Z).
Proof.
  unfold resolve_urls, subprocess_run, check_returncode, io_bind, io_ret, io_lift, emit.
  simpl.
  destruct (exit_status (run_process (dnf_cmd packages reposdir repoid arch source)) =? 0)%Z
    eqn:Hrc; simpl.
  - intros H. apply filterM_Ok in H. destruct H as [_ ->]. split.
    + apply filter_ext. intros line. unfold line_has_scheme.
      destruct (urlsplit line); reflexivity.
    + intros _. now apply Z.eqb_eq.
  - destruct source; simpl.
    + intros H. apply filterM_Ok in H. destruct H as [_ ->]. split; [|discriminate].
      apply filter_ext. intros line. unfold line_has_scheme.
      destruct (urlsplit line); reflexivity.
    + discriminate.
Qed.

(** X9.  A line of the tool's output on which [urlsplit] raises is not
    dropped: when the tool exits with status 0, [resolve_urls] raises the
    exception of the first such line. *)
Theorem resolve_urls_raises_on_unsplittable_line
    (packages : list string) (reposdir : Dir) (repoid arch : string)
    (source : bool) (t : list event)
    (before after : list string) (line : string) (e : exn) :
  exit_status (run_process (dnf_cmd packages reposdir repoid arch source)) = 0%Z ->
  splitlines (captured_stdout
    (run_process (dnf_cmd packages reposdir repoid arch source)))
  = before ++ line :: after ->
  Forall (fun l => exists u, urlsplit l = Ok u) before ->
  urlsplit line = Raise e ->
  fst (resolve_urls packages reposdir repoid arch source t) = Raise e.
Proof.
  intros Hrc Hlines Hbefore Hline.
  unfold resolve_urls, subprocess_run, io_bind, io_ret, io_lift, emit. simpl.
  rewrite Hrc. simpl. unfold urls_of_stdout. rewrite Hlines.
  apply filterM_Raise.
  - eapply Forall_impl; [|exact Hbefore]. intros l [u Hu]. rewrite Hu. simpl. eauto.
  - now rewrite Hline.
Qed.

(** ** [parse_packages_per_repoid] *)

(** The package a line gives to a repository identifier. *)
Definition package_of_line (repoid : RepoID) (line : string) : list string :=
  match split line with
  | [package; r] => if rstrip ")" (lstrip "(" r) =? repoid then [package] else []
  | _ => []
  end.

Definition grouped (done : list string) (d : list (RepoID * list string)) : Prop :=
  NoDup (map fst d)
  /\ forall repoid pkgs,
       In (repoid, pkgs) d
       <-> pkgs <> [] /\ pkgs = flat_map (package_of_line repoid) done.

Lemma grouped_step (done : list string) (d : list (RepoID * list string))
    (line package r : string) :
  split line = [package; r] -> grouped done d ->
  grouped (done ++ [line]) (dd_append (rstrip ")" (lstrip "(" r)) package d).
Proof.
  intros Hline [Hnd Hin]. set (k := rstrip ")" (lstrip "(" r)).
  split; [apply dd_append_NoDup, Hnd|].
  intros repoid pkgs. rewrite (dd_append_In_iff k package d repoid pkgs Hnd).
  assert (Hfm : flat_map (package_of_line repoid) (done ++ [line])
                = flat_map (package_of_line repoid) done
                  ++ (if k =? repoid then [package] else [])).
  { rewrite flat_map_app. f_equal. simpl. rewrite app_nil_r.
    unfold package_of_line. rewrite Hline. reflexivity. }
  rewrite Hfm. clear Hfm.
  destruct (String.eqb_spec k repoid) as [Hk|Hk].
  - subst repoid. split.
    + intros [[Hne _]|[_ [(vs & Hvs & ->)|[Hno ->]]]].
      * now destruct Hne.
      * apply Hin in Hvs. destruct Hvs as [_ <-].
        split; [now destruct vs | reflexivity].
      * split; [discriminate|].
        destruct (flat_map (package_of_line k) done) as [|p ps] eqn:E; [reflexivity|].
        exfalso. apply Hno.
        assert (H : In (k, p :: ps) d) by (apply Hin; split; [discriminate | now rewrite E]).
        apply (in_map fst) in H. exact H.
    + intros [_ ->]. right. split; [reflexivity|].
      destruct (flat_map (package_of_line k) done) as [|p ps] eqn:E.
      * right. split; [|reflexivity]. intros Hk. apply in_map_iff in Hk.
        destruct Hk as ([k' vs] & Hk' & Hvs). simpl in Hk'. subst k'.
        apply Hin in Hvs. destruct Hvs as [Hne Heq]. rewrite E in Heq. congruence.
      * left. exists (p :: ps). split; [|reflexivity].
        apply Hin. split; [discriminate | now rewrite E].
  - rewrite app_nil_r. rewrite <- Hin. split.
    + intros [[_ H]|[-> _]]; [exact H | now destruct Hk].
    + intros H. left. split; [congruence | exact H].
Qed.

(** X10.  When [parse_packages_per_repoid] returns, every line had
    exactly two fields, and the result maps each repository identifier
    that occurs (parentheses stripped) to the packages of its lines, in
    the order of the lines; no identifier is mapped to an empty list and
    none occurs twice. *)
Theorem parse_packages_per_repoid_groups
    (input_file : list string) (d : list (RepoID * list string)) :
  parse_packages_per_repoid input_file = Ok d ->
  Forall (fun line => List.length (split line) = 2) input_file
  /\ NoDup (map fst d)
  /\ forall repoid pkgs,
       In (repoid, pkgs) d
       <-> pkgs <> [] /\ pkgs = flat_map (package_of_line repoid) input_file.
Proof.
  unfold parse_packages_per_repoid.
  assert (H : forall l done d0 d1,
            grouped done d0 ->
            foldM
              (fun packages_per_repoid line =>
                 match split line with
                 | [package; repoid] =>
                     let repoid := rstrip ")" (lstrip "(" repoid) in
                     Ok (dd_append repoid package packages_per_repoid)
                 | [] | [_] => Raise (ValueError "not enough values to unpack")
                 | _ => Raise (ValueError "too many values to unpack")
                 end) l d0 = Ok d1 ->
            Forall (fun line => List.length (split line) = 2) l
            /\ grouped (done ++ l) d1).
  { induction l as [|line l IH]; intros done d0 d1 Hg; simpl.
    - intros [= <-]. rewrite app_nil_r. split; [constructor | exact Hg].
    - destruct (split line) as [|package [|r [|extra rest]]] eqn:Hline; simpl;
        try discriminate.
      intros Hfold.
      destruct (IH (done ++ [line]) _ d1 (grouped_step done d0 line package r Hline Hg) Hfold)
        as [Hall Hg'].
      split.
      + constructor; [now rewrite Hline | exact Hall].
      + now rewrite <- app_assoc in Hg'. }
  intros Hd. destruct (H input_file [] [] d) as [Hall [Hnd Hin]].
  - split; [constructor|]. intros repoid pkgs. simpl. split; [intros [] | intros [Hne ->]].
    now destruct Hne.
  - exact Hd.
  - auto.
Qed.

(** X11.  A line that does not have exactly two fields makes
    [parse_packages_per_repoid] raise [ValueError]. *)
Theorem parse_packages_per_repoid_bad_line (input_file : list string) (line : string) :
  In line input_file -> List.length (split line) <> 2 ->
  exists msg, parse_packages_per_repoid input_file = Raise (ValueError msg).
Proof.
  intros Hin Hlen. unfold parse_packages_per_repoid.
  match goal with
  | |- context [foldM ?f input_file []] =>
      destruct (foldM_raises f (fun e => exists msg, e = ValueError msg)
                  input_file line Hin) with (acc := @nil (RepoID * list string))
        as (e & He & msg & ->)
  end.
  - intros acc. destruct (split line) as [|package [|r [|extra rest]]]; simpl in *;
      eauto; congruence.
  - intros acc y e. destruct (split y) as [|package [|r [|extra rest]]]; simpl;
      intros [= <-]; eauto.
  - eauto.
Qed.

(** ** [main] *)

(** [args.arch or [platform.machine()]] *)
Definition effective_arches (args_arch : option (list string)) : list string :=
  match args_arch with
  | Some (a :: l) => a :: l
  | _ => [platform_machine]
  end.

Lemma resolve_urls_appends (R : event -> Prop)
    (packages : list string) (reposdir : Dir) (repoid arch : string) (source : bool) :
  (forall cmd, R (Run cmd)) -> (forall line, R (PrintStderr line)) ->
  appends R (resolve_urls packages reposdir repoid arch source).
Proof.
  intros Hrun Herr. unfold resolve_urls, subprocess_run, check_returncode.
  apply appends_bind.
  - apply appends_bind; [apply appends_emit, Hrun | intros; apply appends_ret].
  - intros proc. apply appends_bind; [|intros; apply appends_lift].
    destruct (negb (returncode proc =? 0)%Z); [|apply appends_ret].
    apply appends_bind.
    + destruct source; [apply appends_emit, Herr | apply appends_ret].
    + intros _. apply appends_bind; [apply appends_emit, Herr|].
      intros _. destruct (negb source); [|apply appends_ret].
      destruct (returncode proc =? 0)%Z; [apply appends_ret | apply appends_lift].
Qed.

(** What [main] prints for an artifact: its architecture, the repository
    identifier [map_url_to_repoid] returns for its URL against the
    expanded catalog, and the URL. *)
Definition reattributed (reposdir : Dir) (args_arch : option (list string))
    (line : string) : Prop :=
  exists repos m arch repoid url,
    parse_dir reposdir = Ok repos
    /\ map_expanded_baseurls repos (effective_arches args_arch) = Ok m
    /\ In arch (effective_arches args_arch)
    /\ map_url_to_repoid (Str url) m = Ok repoid
    /\ line = (arch ++ " " ++ repoid ++ " " ++ url)%string.

(** X12.  Whether it completes or raises, [main] only appends to the
    trace, and every line it prints on standard output names a requested
    architecture, a URL, and the repository identifier that
    [map_url_to_repoid] gives that URL in the expanded catalog, not the
    identifier the packages were requested from. *)
Theorem main_prints_reattributed_lines
    (input_file : list string) (reposdir : Dir) (args_arch : option (list string))
    (t : list event) :
  exists evs,
    snd (main input_file reposdir args_arch t) = t ++ evs
    /\ forall line, In (PrintStdout line) evs -> reattributed reposdir args_arch line.
Proof.
  set (R := fun e => match e with
                     | PrintStdout line => reattributed reposdir args_arch line
                     | _ => True
                     end).
  assert (H : appends R (main input_file reposdir args_arch)).
  { unfold main. cbv zeta. fold (effective_arches args_arch).
    apply appends_bind_lift. intros ppr _.
    apply appends_bind_lift. intros m Hm.
    destruct (parse_dir reposdir) as [repos|] eqn:Hrepos; simpl in Hm; [|discriminate].
    apply appends_for. intros arch Harch.
    apply appends_for. intros [repoid packages] _.
    apply appends_bind; [apply resolve_urls_appends; intros; exact I|]. intros urls.
    apply appends_bind; [apply resolve_urls_appends; intros; exact I|]. intros source_urls.
    apply appends_for. intros url _.
    apply appends_bind_lift. intros repoid' Hrepoid.
    apply appends_emit. simpl. exists repos, m, arch, repoid', url.
    repeat split; try assumption.
    eapply Permutation_in; [apply sorted_perm | exact Harch]. }
  destruct (H t) as (evs & Ht & Hevs). exists evs. split; [exact Ht|].
  intros line Hin. rewrite Forall_forall in Hevs. apply (Hevs _ Hin).
Qed.

Lemma resolve_urls_commands
    (packages : list string) (reposdir : Dir) (repoid arch : string) (source : bool)
    (t : list event) :
  commands (snd (resolve_urls packages reposdir repoid arch source t))
  = commands t ++ [dnf_cmd packages reposdir repoid arch source].
Proof.
  unfold resolve_urls, subprocess_run, check_returncode, io_bind, io_ret, io_lift, emit.
  simpl.
  destruct (exit_status (run_process (dnf_cmd packages reposdir repoid arch source)) =? 0)%Z
    eqn:Hrc; simpl.
  - now rewrite commands_app.
  - destruct source; simpl; rewrite ?Hrc; simpl; rewrite !commands_app; simpl;
      now rewrite ?app_nil_r.
Qed.

(** The two command lines [main] runs for the packages of a repository. *)
Definition commands_of (reposdir : Dir) (arch : string) (item : RepoID * list string)
    : list (list string) :=
  [dnf_cmd (snd item) reposdir (fst item) arch false;
   dnf_cmd (snd item) reposdir (fst item) arch true].

(** X13.  A run of [main] that completes has invoked the tool exactly
    twice for every pair of a requested architecture and a group of
    packages, first for the binary packages and then for the sources,
    the architectures and the groups being taken in sorted order. *)
Theorem main_runs_two_commands_per_group
    (input_file : list string) (reposdir : Dir) (args_arch : option (list string))
    (t t' : list event) (packages_per_repoid : list (RepoID * list string)) :
  parse_packages_per_repoid input_file = Ok packages_per_repoid ->
  main input_file reposdir args_arch t = (Ok tt, t') ->
  commands t'
  = commands t
    ++ flat_map
         (fun arch =>
            flat_map (commands_of reposdir arch)
              (sorted (pair_ltb String.eqb str_ltb (list_ltb String.eqb str_ltb))
                      packages_per_repoid))
         (sorted str_ltb (effective_arches args_arch)).
Proof.
  intros Hppr. unfold main. cbv zeta. fold (effective_arches args_arch).
  rewrite Hppr. unfold io_bind at 1, io_lift at 1.
  unfold io_bind at 1, io_lift at 1.
  destruct (repos <- parse_dir reposdir ;;
            map_expanded_baseurls repos (effective_arches args_arch)) as [m|];
    [|discriminate].
  apply io_for_commands. intros arch u u' _.
  apply io_for_commands. clear u u'. intros [repoid packages] u u' _ Hbody.
  apply io_bind_Ok in Hbody. destruct Hbody as (urls & u1 & H1 & Hbody).
  apply io_bind_Ok in Hbody. destruct Hbody as (source_urls & u2 & H2 & Hbody).
  assert (Hprint : commands u' = commands u2).
  { destruct (appends_for (fun e => match e with Run _ => False | _ => True end)
                (sorted str_ltb urls ++ sorted str_ltb source_urls)
                (fun url =>
                   repoid <-- io_lift (map_url_to_repoid (Str url) m) ;;
                   emit (PrintStdout (arch ++ " " ++ repoid ++ " " ++ url)%string)))
      with (t := u2) as (evs & Hevs & Hno).
    - intros url _. apply appends_bind_lift. intros r _. now apply appends_emit.
    - rewrite Hbody in Hevs. simpl in Hevs. subst u'. rewrite commands_app.
      assert (Hnil : commands evs = []).
      { clear -Hno. induction Hno as [|e evs He _ IH]; [reflexivity|].
        unfold commands in *. simpl. rewrite IH. now destruct e. }
      now rewrite Hnil, app_nil_r. }
  rewrite Hprint.
  pose proof (resolve_urls_commands packages reposdir repoid arch true u1) as Hc2.
  rewrite H2 in Hc2. simpl in Hc2. rewrite Hc2.
  pose proof (resolve_urls_commands packages reposdir repoid arch false u) as Hc1.
  rewrite H1 in Hc1. simpl in Hc1. rewrite Hc1.
  unfold commands_of. simpl. now rewrite <- app_assoc.
Qed.

(** ** [main], continued *)

(** The URLs a call of [resolve_urls] returns when it returns. *)
Definition resolved_urls (packages : list string) (reposdir : Dir)
    (repoid arch : string) (source : bool) : list string :=
  filter line_has_scheme
    (splitlines (captured_stdout
       (run_process (dnf_cmd packages reposdir repoid arch source)))).

Lemma resolve_urls_Ok
    (packages : list string) (reposdir : Dir) (repoid arch : string) (source : bool)
    (t t' : list event) (urls : list string) :
  resolve_urls packages reposdir repoid arch source t = (Ok urls, t') ->
  urls = resolved_urls packages reposdir repoid arch source
  /\ printed t' = printed t
  /\ (source = false ->
      exit_status (run_process (dnf_cmd packages reposdir repoid arch source)) = 0%Z).
Proof.
  unfold resolve_urls, subprocess_run, check_returncode, io_bind, io_ret, io_lift, emit,
    resolved_urls.
  simpl.
  assert (Hfilter : forall l,
            urls_of_stdout (captured_stdout
              (run_process (dnf_cmd packages reposdir repoid arch source))) = Ok l ->
            l = filter line_has_scheme
                  (splitlines (captured_stdout
                     (run_process (dnf_cmd packages reposdir repoid arch source))))).
  { intros l H. apply filterM_Ok in H. destruct H as [_ ->].
    apply filter_ext. intros line. unfold line_has_scheme.
    destruct (urlsplit line); reflexivity. }
  destruct (exit_status (run_process (dnf_cmd packages reposdir repoid arch source)) =? 0)%Z
    eqn:Hrc; simpl.
  - intros [= Hurls <-]. split; [apply Hfilter, Hurls|]. split.
    + rewrite printed_app. simpl. now rewrite app_nil_r.
    + intros _. now apply Z.eqb_eq.
  - destruct source; simpl.
    + intros [= Hurls <-]. split; [apply Hfilter, Hurls|]. split; [|discriminate].
      rewrite !printed_app. simpl. now rewrite !app_nil_r.
    + discriminate.
Qed.

(** X18.  A run of [main] that completes had every call of the tool for
    binary packages exit with status 0: a failed resolution of binary
    packages is never passed over. *)
Theorem main_completes_only_if_binary_resolution_succeeds
    (input_file : list string) (reposdir : Dir) (args_arch : option (list string))
    (t t' : list event) (packages_per_repoid : list (RepoID * list string))
    (arch : string) (item : RepoID * list string) :
  parse_packages_per_repoid input_file = Ok packages_per_repoid ->
  main input_file reposdir args_arch t = (Ok tt, t') ->
  In arch (effective_arches args_arch) -> In item packages_per_repoid ->
  exit_status (run_process (dnf_cmd (snd item) reposdir (fst item) arch false)) = 0%Z.
Proof.
  intros Hppr Hmain Harch Hitem. unfold main in Hmain. cbv zeta in Hmain.
  fold (effective_arches args_arch) in Hmain. rewrite Hppr in Hmain.
  unfold io_bind at 1, io_lift at 1 in Hmain.
  unfold io_bind at 1, io_lift at 1 in Hmain.
  destruct (repos <- parse_dir reposdir ;;
            map_expanded_baseurls repos (effective_arches args_arch)) as [m|];
    [|discriminate].
  destruct (io_for_Ok_each _ _ _ _ Hmain arch) as (u & u' & Harch').
  { eapply Permutation_in; [symmetry; apply sorted_perm | exact Harch]. }
  destruct (io_for_Ok_each _ _ _ _ Harch' item) as (v & v' & Hbody).
  { eapply Permutation_in; [symmetry; apply sorted_perm | exact Hitem]. }
  destruct item as [repoid packages]. apply io_bind_Ok in Hbody.
  destruct Hbody as (urls & v1 & H1 & _). apply resolve_urls_Ok in H1.
  destruct H1 as (_ & _ & H1). apply H1. reflexivity.
Qed.

(** The line [main] prints for a URL, when the URL has a repository. *)
Definition attributed_line (m : list (URL * RepoID)) (arch url : string) : list string :=
  match map_url_to_repoid (Str url) m with
  | Ok repoid => [(arch ++ " " ++ repoid ++ " " ++ url)%string]
  | Raise _ => []
  end.

(** X19.  A run of [main] that completes has printed, for the requested
    architectures in sorted order and for the repository groups of the
    input in sorted order, one line per URL resolved for the binary
    packages of the group, sorted, followed by one line per URL resolved
    for its sources, sorted; each line holds the architecture, the
    repository identifier matched for the URL, and the URL. *)
Theorem main_prints_sorted_attributed_urls
    (input_file : list string) (reposdir : Dir) (args_arch : option (list string))
    (t t' : list event) (packages_per_repoid : list (RepoID * list string))
    (repos : RepoSet) (m : list (URL * RepoID)) :
  parse_packages_per_repoid input_file = Ok packages_per_repoid ->
  parse_dir reposdir = Ok repos ->
  map_expanded_baseurls repos (effective_arches args_arch) = Ok m ->
  main input_file reposdir args_arch t = (Ok tt, t') ->
  printed t'
  = printed t
    ++ flat_map
         (fun arch =>
            flat_map
              (fun item : RepoID * list string =>
                 flat_map (attributed_line m arch)
                   (sorted str_ltb
                      (resolved_urls (snd item) reposdir (fst item) arch false)
                    ++ sorted str_ltb
                         (resolved_urls (snd item) reposdir (fst item) arch true)))
              (sorted (pair_ltb String.eqb str_ltb (list_ltb String.eqb str_ltb))
                      packages_per_repoid))
         (sorted str_ltb (effective_arches args_arch)).
Proof.
  intros Hppr Hrepos Hm. unfold main. cbv zeta. fold (effective_arches args_arch).
  rewrite Hppr, Hrepos. simpl bind. rewrite Hm.
  unfold io_bind at 1, io_lift at 1. unfold io_bind at 1, io_lift at 1.
  apply io_for_printed. intros arch u u' _.
  apply io_for_printed. clear u u'. intros [repoid packages] u u' _ Hbody.
  apply io_bind_Ok in Hbody. destruct Hbody as (urls & u1 & H1 & Hbody).
  apply io_bind_Ok in Hbody. destruct Hbody as (source_urls & u2 & H2 & Hbody).
  apply resolve_urls_Ok in H1. destruct H1 as (-> & Hp1 & _).
  apply resolve_urls_Ok in H2. destruct H2 as (-> & Hp2 & _).
  simpl. rewrite <- Hp1, <- Hp2. revert Hbody. apply io_for_printed.
  intros url w w' _. unfold io_bind, io_lift, emit, attributed_line.
  destruct (map_url_to_repoid (Str url) m) as [r|]; [|discriminate].
  intros [= <-]. rewrite printed_app. reflexivity.
Qed.

End Library.

(** ** The scripts on concrete inputs *)

Definition https (host p : string) : URL :=
  {| scheme := "https"; netloc := host; path := p; query := ""; fragment := "" |}.

Definition example_repos : RepoSet :=
  {| _mapping :=
       [("everything", [("baseurl", Ok "https://example/repo/")]);
        ("baseos", [("name", Ok "BaseOS");
                    ("baseurl", Ok "https://example/repo/$basearch/")])] |}.

Definition example_map : list (URL * RepoID) :=
  [(https "example" "/repo/", "everything");
   (https "example" "/repo/x86_64/", "baseos")].

Definition bash_url : string := "https://example/repo/x86_64/bash-5.1.rpm".

Example map_expanded_baseurls_example :
  map_expanded_baseurls urlsplit_model example_repos ["x86_64"] = Ok example_map.
Proof. reflexivity. Qed.

Example urlsplit_bash_url :
  urlsplit_model bash_url = Ok (https "example" "/repo/x86_64/bash-5.1.rpm").
Proof. reflexivity. Qed.

(** C1, as stated, fails: the catalog [example_repos] expands for [x86_64]
    to [example_map]; the URL of [bash] shares scheme and network location
    with the base URL expanded from [baseos] and lies under its path, and
    is attributed to [everything], registered first. *)
Lemma nested_url_attributed_to_other_repository :
  map_expanded_baseurls urlsplit_model example_repos ["x86_64"] = Ok example_map
  /\ In (https "example" "/repo/x86_64/", "baseos") example_map
  /\ urlsplit_model bash_url = Ok (https "example" "/repo/x86_64/bash-5.1.rpm")
  /\ equal_or_nested_under (Path "/repo/x86_64/bash-5.1.rpm") (Path "/repo/x86_64/")
  /\ map_url_to_repoid urlsplit_model geturl_model (Str bash_url) example_map
     = Ok "everything"
  /\ "everything" <> "baseos".
Proof.
  repeat split; try reflexivity.
  - right; left; reflexivity.
  - exists ["bash-5.1.rpm"]. reflexivity.
  - discriminate.
Qed.

Lemma map_url_to_repoid_attributes_first_match_witness :
  map_url_to_repoid urlsplit_model geturl_model (Str bash_url)
    ([(https "mirror" "/repo/", "everything")]
       ++ (https "example" "/repo/x86_64/", "baseos")
       :: [(https "example" "/repo/", "everything")])
  = Ok "baseos".
Proof.
  refine (proj2 (map_url_to_repoid_attributes_first_match urlsplit_model geturl_model
                   (Str bash_url) (https "example" "/repo/x86_64/bash-5.1.rpm")
                   (https "example" "/repo/x86_64/") "baseos"
                   [(https "mirror" "/repo/", "everything")]
                   [(https "example" "/repo/", "everything")] _ _) _ _ _).
  - reflexivity.
  - intros b' r' [[= <- <-]|[]]. reflexivity.
  - reflexivity.
  - reflexivity.
  - split; [reflexivity | exists ["bash-5.1.rpm"]; reflexivity].
Defined.

Definition mirror_map : list (URL * RepoID) :=
  [(https "mirror" "/pub", "os"); (https "mirror" "/pub/updates", "updates")].

Definition kernel_url : URL := https "mirror" "/pub/updates/kernel-6.1.rpm".

(** C2, as stated, fails: [kernel_url] matches both base URLs of
    [mirror_map]; the longer matching path prefix is the one of [updates],
    and the identifier returned is [os]. *)
Lemma longest_prefix_not_returned :
  url_matches kernel_url (https "mirror" "/pub") = true
  /\ url_matches kernel_url (https "mirror" "/pub/updates") = true
  /\ (String.length "/pub" < String.length "/pub/updates")%nat
  /\ equal_or_nested_under (Path "/pub/updates") (Path "/pub")
  /\ dict_get SplitResult_eqb (https "mirror" "/pub/updates") mirror_map = Some "updates"
  /\ map_url_to_repoid urlsplit_model geturl_model (Url kernel_url) mirror_map = Ok "os"
  /\ "os" <> "updates".
Proof.
  repeat split; try reflexivity.
  - simpl. lia.
  - exists ["updates"]. reflexivity.
  - discriminate.
Qed.

Lemma map_url_to_repoid_first_of_several_witness :
  exists before b r after,
    mirror_map = before ++ (b, r) :: after
    /\ url_matches kernel_url b = true
    /\ (forall b' r', In (b', r') before -> url_matches kernel_url b' = false)
    /\ map_url_to_repoid urlsplit_model geturl_model (Url kernel_url) mirror_map = Ok r.
Proof.
  apply (map_url_to_repoid_first_of_several urlsplit_model geturl_model
           (Url kernel_url) kernel_url
           (https "mirror" "/pub") (https "mirror" "/pub/updates") "os" "updates").
  - reflexivity.
  - left; reflexivity.
  - right; left; reflexivity.
  - discriminate.
  - reflexivity.
  - reflexivity.
Defined.

Lemma map_url_to_repoid_no_match_raises_witness :
  map_url_to_repoid urlsplit_model geturl_model
    (Str "https://elsewhere/repo/x86_64/bash-5.1.rpm") example_map
  = Raise (ValueError
      "Couldn't find matching baseurl for https://elsewhere/repo/x86_64/bash-5.1.rpm").
Proof.
  refine (proj1 (proj2 (map_url_to_repoid_no_match_raises urlsplit_model geturl_model
                          (Str "https://elsewhere/repo/x86_64/bash-5.1.rpm")
                          (https "elsewhere" "/repo/x86_64/bash-5.1.rpm")
                          example_map _)) _).
  - reflexivity.
  - intros b r [[= <- <-]|[[= <- <-]|[]]]; discriminate.
Defined.

Example urlsplit_host_only : urlsplit_model "https://host" = Ok (https "host" "").
Proof. reflexivity. Qed.

(** A mapping with a host-only base URL and, after it, a base URL of
    the same host with a path. *)
Definition host_map : list (URL * RepoID) :=
  [(https "host" "", "hostonly"); (https "host" "/pkgs", "pkgs")].

(** C10, as stated, fails: the package URL lies under the host-only base
    URL [https://host], which does not match it, but the mapping holds a
    second base URL that does; the URL is attributed to that repository
    and no error is raised. *)
Lemma url_under_host_only_base_attributed_elsewhere :
  urlsplit_model "https://host" = Ok (https "host" "")
  /\ urlsplit_model "https://host/pkgs" = Ok (https "host" "/pkgs")
  /\ url_matches (https "host" "/pkgs/bash-5.1.rpm") (https "host" "") = false
  /\ map_url_to_repoid urlsplit_model geturl_model
       (Str "https://host/pkgs/bash-5.1.rpm") host_map
     = Ok "pkgs".
Proof. repeat split. Qed.

Lemma empty_base_path_never_matches_witness :
  url_matches (https "host" "/pkgs/bash-5.1.rpm") (https "host" "") = false
  /\ map_url_to_repoid urlsplit_model geturl_model
       (Str "https://host/pkgs/bash-5.1.rpm") host_map
     = map_url_to_repoid urlsplit_model geturl_model
         (Str "https://host/pkgs/bash-5.1.rpm") [(https "host" "/pkgs", "pkgs")]
  /\ map_url_to_repoid urlsplit_model geturl_model
       (Str "https://host/pkgs/bash-5.1.rpm") [(https "host" "", "hostonly")]
     = Raise (ValueError
         "Couldn't find matching baseurl for https://host/pkgs/bash-5.1.rpm").
Proof.
  split; [|split].
  - apply (proj1 (empty_base_path_never_matches urlsplit_model geturl_model
                    (Str "https://host/pkgs/bash-5.1.rpm")
                    (https "host" "/pkgs/bash-5.1.rpm")
                    host_map eq_refl eq_refl)).
    reflexivity.
  - exact (proj1 (proj2 (empty_base_path_never_matches urlsplit_model geturl_model
                           (Str "https://host/pkgs/bash-5.1.rpm")
                           (https "host" "/pkgs/bash-5.1.rpm")
                           host_map eq_refl eq_refl))).
  - apply (proj2 (proj2 (empty_base_path_never_matches urlsplit_model geturl_model
                           (Str "https://host/pkgs/bash-5.1.rpm")
                           (https "host" "/pkgs/bash-5.1.rpm")
                           [(https "host" "", "hostonly")] eq_refl eq_refl))).
    intros b r [[= <- <-]|[]] Hne. now contradiction Hne.
Defined.

Definition newline : string := String "010" "".

(** A tool that finds one source package and fails on the next one. *)
Definition failing_dnf (cmd : list string) : ProcessOutput :=
  {| exit_status := 1;
     captured_stdout := "https://example/src/bash-5.1.src.rpm" ++ newline;
     captured_stderr := "No package zlib available." |}.

Definition example_dir : Dir :=
  {| iterdir :=
       [{| entry_name := "example.repo"; is_file := true;
           config_items :=
             Ok [("DEFAULT", []);
                 ("baseos", [("baseurl", Ok "https://example/repo/$basearch/")]);
                 ("extras", [("name", Ok "Extras")])] |};
        {| entry_name := "README"; is_file := true;
           config_items := Raise (ConfigParserError "no section header") |}];
     resolve := "/etc/yum.repos.d" |}.

(** C6, as stated, fails: the tool exits with status 1 after it printed
    the URL of one source package; the call for source artifacts returns
    that URL, not an empty result. *)
Lemma failed_source_resolution_result_not_empty :
  exit_status (failing_dnf
    (dnf_cmd ["bash"; "zlib"] example_dir "baseos" "x86_64" true)) = 1%Z
  /\ fst (resolve_urls urlsplit_model failing_dnf splitlines_model repr_model
            ["bash"; "zlib"] example_dir "baseos" "x86_64" true [])
     = Ok ["https://example/src/bash-5.1.src.rpm"]
  /\ ["https://example/src/bash-5.1.src.rpm"] <> @nil string.
Proof. repeat split; try reflexivity. discriminate. Qed.

Lemma resolve_urls_on_failure_witness :
  resolve_urls urlsplit_model failing_dnf splitlines_model repr_model
    ["bash"; "zlib"] example_dir "baseos" "x86_64" false []
  = (Raise (CalledProcessError 1
       ["dnf"; "--setopt=reposdir=/etc/yum.repos.d"; "--forcearch=x86_64";
        "download"; "--url"; "--repo=baseos"; "bash"; "zlib"]),
     [Run ["dnf"; "--setopt=reposdir=/etc/yum.repos.d"; "--forcearch=x86_64";
           "download"; "--url"; "--repo=baseos"; "bash"; "zlib"];
      PrintStderr "No package zlib available."]).
Proof.
  apply (resolve_urls_on_failure urlsplit_model failing_dnf splitlines_model repr_model
           ["bash"; "zlib"] example_dir "baseos" "x86_64" false []).
  discriminate.
Defined.

Definition example_catalog : RepoSet :=
  {| _mapping :=
       [("baseos", [("baseurl", Ok "https://example/repo/$basearch/")]);
        ("extras", [("name", Ok "Extras")])] |}.



Example main_missing_baseurl :
  main urlsplit_model geturl_model failing_dnf splitlines_model split_model repr_model
    "x86_64" ["bash (baseos)"] example_dir (Some ["x86_64"]) []
  = (Raise (KeyError "baseurl"), []).
Proof. reflexivity. Qed.

(** A section whose [baseurl] holds a stray [%] comes before the section
    without [baseurl]: reading it raises first, and that exception is the
    one [map_expanded_baseurls] raises. *)
Example map_expanded_baseurls_interpolation_error :
  map_expanded_baseurls urlsplit_model
    {| _mapping :=
         [("broken", [("baseurl",
                       Raise (InterpolationSyntaxError
                                "'%' must be followed by '%' or '(', found: '%zz'"))]);
          ("extras", [("name", Ok "Extras")])] |}
    ["x86_64"]
  = Raise (InterpolationSyntaxError "'%' must be followed by '%' or '(', found: '%zz'").
Proof. reflexivity. Qed.

Definition working_dnf (cmd : list string) : ProcessOutput :=
  {| exit_status := 0;
     captured_stdout := "Last metadata expiration check" ++ newline ++ bash_url ++ newline;
     captured_stderr := "" |}.

Lemma resolve_urls_on_success_witness :
  resolve_urls urlsplit_model working_dnf splitlines_model repr_model
    ["bash"] example_dir "baseos" "x86_64" false []
  = (Ok [bash_url],
     [Run ["dnf"; "--setopt=reposdir=/etc/yum.repos.d"; "--forcearch=x86_64";
           "download"; "--url"; "--repo=baseos"; "bash"]]).
Proof.
  apply (resolve_urls_on_success urlsplit_model working_dnf splitlines_model repr_model
           ["bash"] example_dir "baseos" "x86_64" false []).
  reflexivity.
Defined.

Lemma map_expanded_baseurls_provenance_witness :
  exists arch attrs tmpl,
    In arch ["x86_64"] /\ In ("baseos", attrs) (_mapping example_repos)
    /\ getitem attrs "baseurl" = Ok tmpl
    /\ urlsplit_model (safe_substitute tmpl arch) = Ok (https "example" "/repo/x86_64/").
Proof.
  apply (map_expanded_baseurls_provenance urlsplit_model example_repos ["x86_64"]
           example_map (https "example" "/repo/x86_64/") "baseos").
  - reflexivity.
  - right; left; reflexivity.
Defined.

(** The first end-to-end scenario of the specification: [bash] requested
    from [baseos] for [x86_64] is printed with [baseos]. *)
Example main_reattributes_to_baseos :
  main urlsplit_model geturl_model working_dnf splitlines_model split_model repr_model
    "x86_64" ["bash (baseos)"]
    {| iterdir :=
         [{| entry_name := "baseos.repo"; is_file := true;
             config_items :=
               Ok [("DEFAULT", []);
                   ("baseos", [("baseurl", Ok "https://example/repo/$basearch/")])] |}];
       resolve := "/etc/yum.repos.d" |}
    (Some ["x86_64"]) []
  = (Ok tt,
     [Run ["dnf"; "--setopt=reposdir=/etc/yum.repos.d"; "--forcearch=x86_64";
           "download"; "--url"; "--repo=baseos"; "bash"];
      Run ["dnf"; "--setopt=reposdir=/etc/yum.repos.d"; "--forcearch=x86_64";
           "download"; "--url"; "--source"; "bash"];
      PrintStdout "x86_64 baseos https://example/repo/x86_64/bash-5.1.rpm";
      PrintStdout "x86_64 baseos https://example/repo/x86_64/bash-5.1.rpm"]).
Proof. reflexivity. Qed.

Lemma parse_dir_last_definition_wins_witness :
  NoDup (map fst (_mapping example_catalog))
  /\ ~ In DEFAULTSECT (map fst (_mapping example_catalog))
  /\ forall repoid attrs,
       In (repoid, attrs) (_mapping example_catalog)
       <-> last_binding (sections_read example_dir) repoid attrs.
Proof.
  apply (parse_dir_last_definition_wins example_dir example_catalog).
  reflexivity.
Defined.

Lemma map_expanded_baseurls_last_registration_wins_witness :
  NoDup (map fst example_map)
  /\ exists pairs,
       expansions urlsplit_model example_repos ["x86_64"] = Ok pairs
       /\ (forall b r, In (b, r) example_map <-> last_binding pairs b r)
       /\ (forall arch item, In arch ["x86_64"] -> In item (_mapping example_repos) ->
             exists b r, expansion urlsplit_model arch item = Ok (b, fst item)
                         /\ In (b, r) example_map).
Proof.
  apply (map_expanded_baseurls_last_registration_wins urlsplit_model
           example_repos ["x86_64"] example_map).
  reflexivity.
Defined.

Lemma resolve_urls_returns_lines_with_scheme_witness :
  [bash_url]
  = filter (line_has_scheme urlsplit_model)
      (splitlines_model (captured_stdout
         (working_dnf (dnf_cmd ["bash"] example_dir "baseos" "x86_64" false))))
  /\ (false = false ->
      exit_status (working_dnf (dnf_cmd ["bash"] example_dir "baseos" "x86_64" false))
      = 0%Z).
Proof.
  apply (resolve_urls_returns_lines_with_scheme urlsplit_model working_dnf
           splitlines_model repr_model ["bash"] example_dir "baseos" "x86_64" false []).
  reflexivity.
Defined.

(** A tool that prints a line with an unbalanced bracket in the place of
    the host. *)
Definition bracket_dnf (cmd : list string) : ProcessOutput :=
  {| exit_status := 0;
     captured_stdout := bash_url ++ newline ++ "//[broken" ++ newline;
     captured_stderr := "" |}.

Lemma resolve_urls_raises_on_unsplittable_line_witness :
  fst (resolve_urls urlsplit_model bracket_dnf splitlines_model repr_model
         ["bash"] example_dir "baseos" "x86_64" false [])
  = Raise (ValueError "Invalid IPv6 URL").
Proof.
  apply (resolve_urls_raises_on_unsplittable_line urlsplit_model bracket_dnf
           splitlines_model repr_model ["bash"] example_dir "baseos" "x86_64" false []
           [bash_url] [] "//[broken").
  - reflexivity.
  - reflexivity.
  - repeat constructor. eexists. reflexivity.
  - reflexivity.
Defined.

Lemma parse_packages_per_repoid_groups_witness :
  Forall (fun line => List.length (split_model line) = 2)
    ["bash (baseos)"; "gcc (appstream)"; "zlib (baseos)"]
  /\ NoDup (map fst [("baseos", ["bash"; "zlib"]); ("appstream", ["gcc"])])
  /\ forall repoid pkgs,
       In (repoid, pkgs) [("baseos", ["bash"; "zlib"]); ("appstream", ["gcc"])]
       <-> pkgs <> []
           /\ pkgs = flat_map (package_of_line split_model repoid)
                       ["bash (baseos)"; "gcc (appstream)"; "zlib (baseos)"].
Proof.
  apply (parse_packages_per_repoid_groups split_model
           ["bash (baseos)"; "gcc (appstream)"; "zlib (baseos)"]
           [("baseos", ["bash"; "zlib"]); ("appstream", ["gcc"])]).
  reflexivity.
Defined.

Lemma parse_packages_per_repoid_bad_line_witness :
  exists msg,
    parse_packages_per_repoid split_model ["bash (baseos)"; "zlib"]
    = Raise (ValueError msg).
Proof.
  apply (parse_packages_per_repoid_bad_line split_model
           ["bash (baseos)"; "zlib"] "zlib").
  - right; left; reflexivity.
  - discriminate.
Defined.

Lemma main_runs_two_commands_per_group_witness :
  commands
    (snd (main urlsplit_model geturl_model working_dnf splitlines_model split_model
            repr_model "x86_64" ["bash (baseos)"]
            {| iterdir :=
                 [{| entry_name := "baseos.repo"; is_file := true;
                     config_items :=
                       Ok [("baseos", [("baseurl", Ok "https://example/repo/$basearch/")])] |}];
               resolve := "/etc/yum.repos.d" |}
            None []))
  = commands []
    ++ flat_map
         (fun arch =>
            flat_map
              (commands_of
                 {| iterdir :=
                      [{| entry_name := "baseos.repo"; is_file := true;
                          config_items :=
                            Ok [("baseos",
                                 [("baseurl", Ok "https://example/repo/$basearch/")])] |}];
                    resolve := "/etc/yum.repos.d" |} arch)
              (sorted (pair_ltb String.eqb str_ltb (list_ltb String.eqb str_ltb))
                      [("baseos", ["bash"])]))
         (sorted str_ltb (effective_arches "x86_64" None)).
Proof.
  apply (main_runs_two_commands_per_group urlsplit_model geturl_model working_dnf
           splitlines_model split_model repr_model "x86_64" ["bash (baseos)"]).
  - reflexivity.
  - reflexivity.
Defined.

Definition baseos_dir : Dir :=
  {| iterdir :=
       [{| entry_name := "baseos.repo"; is_file := true;
           config_items :=
             Ok [("baseos", [("baseurl", Ok "https://example/repo/$basearch/")])] |}];
     resolve := "/etc/yum.repos.d" |}.

Lemma main_completes_only_if_binary_resolution_succeeds_witness :
  exit_status (working_dnf (dnf_cmd (snd ("baseos", ["bash"])) baseos_dir
                              (fst ("baseos", ["bash"])) "x86_64" false)) = 0%Z.
Proof.
  eapply (main_completes_only_if_binary_resolution_succeeds urlsplit_model geturl_model
            working_dnf splitlines_model split_model repr_model "x86_64"
            ["bash (baseos)"] baseos_dir None [] _ [("baseos", ["bash"])]
            "x86_64" ("baseos", ["bash"])).
  - reflexivity.
  - reflexivity.
  - left; reflexivity.
  - left; reflexivity.
Defined.

Lemma main_prints_sorted_attributed_urls_witness :
  printed
    (snd (main urlsplit_model geturl_model working_dnf splitlines_model split_model
            repr_model "x86_64" ["bash (baseos)"] baseos_dir None []))
  = printed []
    ++ flat_map
         (fun arch =>
            flat_map
              (fun item : RepoID * list string =>
                 flat_map
                   (attributed_line urlsplit_model geturl_model
                      [(https "example" "/repo/x86_64/", "baseos")] arch)
                   (sorted str_ltb
                      (resolved_urls urlsplit_model working_dnf splitlines_model
                         (snd item) baseos_dir (fst item) arch false)
                    ++ sorted str_ltb
                         (resolved_urls urlsplit_model working_dnf splitlines_model
                            (snd item) baseos_dir (fst item) arch true)))
              (sorted (pair_ltb String.eqb str_ltb (list_ltb String.eqb str_ltb))
                      [("baseos", ["bash"])]))
         (sorted str_ltb (effective_arches "x86_64" None)).
Proof.
  apply (main_prints_sorted_attributed_urls urlsplit_model geturl_model working_dnf
           splitlines_model split_model repr_model "x86_64" ["bash (baseos)"]
           baseos_dir None [] _ [("baseos", ["bash"])]
           {| _mapping := [("baseos", [("baseurl", Ok "https://example/repo/$basearch/")])] |}).
  - reflexivity.
  - reflexivity.
  - reflexivity.
  - reflexivity.
Defined.

End resolve_urls.

(* ================================================================== *)
(** * The lockfile document                                            *)
(* ================================================================== *)

(** The JSON document written by [lockfile_from_urls.py] and rewritten by
    [enhance_with_size_and_checksum.py].  [size] and [checksum] are the
    optional keys of an artifact entry. *)
Module Lockfile.

Record Item : Type :=
  { url : string; repoid : string; size : option Z; checksum : option string }.

Record ArchEntry : Type :=
  { arch : string; packages : list Item; source : list Item }.

Record Document : Type :=
  { lockfileVersion : Z; lockfileVendor : string; arches : list ArchEntry }.

(** The artifacts of a document as (architecture, repository, URL)
    triples: for each architecture entry its packages, then its sources. *)
Definition triples (doc : Document) : list (string * string * string) :=
  flat_map
    (fun e => map (fun it => (arch e, repoid it, url it)) (packages e ++ source e))
    (arches doc).

End Lockfile.

(* ================================================================== *)
(** * lockfile_from_urls.py                                            *)
(* ================================================================== *)

Module lockfile_from_urls.
Import Py.

Record ResolvedRPM : Type := { arch : string; repoid : string; url : string }.

(** Order of the named tuple: field by field. *)
Definition ResolvedRPM_ltb (a b : ResolvedRPM) : bool :=
  if arch a =? arch b then
    if repoid a =? repoid b then str_ltb (url a) (url b)
    else str_ltb (repoid a) (repoid b)
  else str_ltb (arch a) (arch b).

(** The value of an architecture in [arch_data]. *)
Record ArchData : Type :=
  { packages : list Lockfile.Item; source : list Lockfile.Item }.

(** [lambda: {"packages": [], "source": []}] *)
Definition default_factory : ArchData := {| packages := []; source := [] |}.

Definition append_packages (item : Lockfile.Item) (d : ArchData) : ArchData :=
  {| packages := packages d ++ [item]; source := source d |}.

Definition append_source (item : Lockfile.Item) (d : ArchData) : ArchData :=
  {| packages := packages d; source := source d ++ [item] |}.

(** [f(arch_data[k])] on a [defaultdict]: a missing key is inserted last
    with the default value first. *)
Fixpoint dd_update (k : string) (f : ArchData -> ArchData)
    (arch_data : list (string * ArchData)) : list (string * ArchData) :=
  match arch_data with
  | [] => [(k, f default_factory)]
  | (k', v) :: d' =>
      if k' =? k then (k', f v) :: d' else (k', v) :: dd_update k f d'
  end.

(** [{"url": rpm.url, "repoid": rpm.repoid}] *)
Definition item_of (rpm : ResolvedRPM) : Lockfile.Item :=
  {| Lockfile.url := url rpm; Lockfile.repoid := repoid rpm;
     Lockfile.size := None; Lockfile.checksum := None |}.

(** [{"arch": arch} | data] *)
Definition arch_entry (kv : string * ArchData) : Lockfile.ArchEntry :=
  {| Lockfile.arch := fst kv;
     Lockfile.packages := packages (snd kv);
     Lockfile.source := source (snd kv) |}.

Definition triple_of (rpm : ResolvedRPM) : string * string * string :=
  (arch rpm, repoid rpm, url rpm).

(** ** The order of [ResolvedRPM] is a strict total order *)

Ltac string_cases :=
  repeat match goal with
    | H : context [String.eqb ?x ?y] |- _ => destruct (String.eqb_spec x y); subst
    | |- context [String.eqb ?x ?y] => destruct (String.eqb_spec x y); subst
    end.

Ltac str_order :=
  try congruence;
  try solve [eapply str_ltb_trans; eassumption];
  try solve [apply str_ltb_irrefl];
  try match goal with
    | H : str_ltb ?x ?x = true |- _ => rewrite str_ltb_irrefl in H; discriminate
    | H1 : str_ltb ?x ?y = true, H2 : str_ltb ?y ?x = true |- _ =>
        let Hc := fresh in
        pose proof (str_ltb_trans _ _ _ H1 H2) as Hc;
        rewrite str_ltb_irrefl in Hc; discriminate
    | H1 : str_ltb ?x ?y = false, H2 : str_ltb ?y ?x = false |- _ =>
        let Hc := fresh in
        pose proof (str_ltb_total _ _ H1 H2) as Hc; congruence
    end.

Lemma ResolvedRPM_ltb_irrefl (a : ResolvedRPM) : ResolvedRPM_ltb a a = false.
Proof. unfold ResolvedRPM_ltb. rewrite !String.eqb_refl. apply str_ltb_irrefl. Qed.

Lemma ResolvedRPM_ltb_trans (a b c : ResolvedRPM) :
  ResolvedRPM_ltb a b = true -> ResolvedRPM_ltb b c = true ->
  ResolvedRPM_ltb a c = true.
Proof.
  destruct a, b, c. unfold ResolvedRPM_ltb. simpl. intros H1 H2.
  string_cases; str_order.
Qed.

Lemma ResolvedRPM_ltb_total (a b : ResolvedRPM) :
  ResolvedRPM_ltb a b = false -> ResolvedRPM_ltb b a = false -> a = b.
Proof.
  destruct a, b. unfold ResolvedRPM_ltb. simpl. intros H1 H2.
  string_cases; str_order.
Qed.

(** ** [arch_data] and the triples it holds *)

Definition data_triples (kv : string * ArchData) : list (string * string * string) :=
  map (fun it => (fst kv, Lockfile.repoid it, Lockfile.url it))
      (packages (snd kv) ++ source (snd kv)).

Lemma triples_arch_entries (v : Z) (vendor : string) (d : list (string * ArchData)) :
  Lockfile.triples {| Lockfile.lockfileVersion := v; Lockfile.lockfileVendor := vendor;
                      Lockfile.arches := map arch_entry d |}
  = flat_map data_triples d.
Proof.
  unfold Lockfile.triples. simpl. induction d as [|kv d IH]; simpl; [reflexivity|].
  now rewrite IH.
Qed.

Lemma dd_update_triples (k : string) (item : Lockfile.Item) (f : ArchData -> ArchData)
    (d : list (string * ArchData)) :
  f = append_packages item \/ f = append_source item ->
  Permutation (flat_map data_triples (dd_update k f d))
              ((k, Lockfile.repoid item, Lockfile.url item) :: flat_map data_triples d).
Proof.
  intros Hf. induction d as [|[k' v] d IH]; simpl.
  - destruct Hf as [-> | ->]; reflexivity.
  - destruct (String.eqb_spec k' k) as [->|Hne]; simpl.
    + apply (Permutation_app_tail _ (l' := (k, Lockfile.repoid item, Lockfile.url item)
                                          :: data_triples (k, v))).
      unfold data_triples. simpl. destruct Hf as [-> | ->]; simpl.
      * rewrite <- app_assoc, !map_app. simpl.
        symmetry. apply Permutation_middle.
      * rewrite app_assoc, map_app. simpl.
        symmetry. rewrite <- Permutation_cons_append. reflexivity.
    + rewrite IH. rewrite Permutation_middle. reflexivity.
Qed.

Lemma dd_update_keys (k : string) (f : ArchData -> ArchData)
    (d : list (string * ArchData)) (k' : string) :
  In k' (map fst (dd_update k f d)) <-> k' = k \/ In k' (map fst d).
Proof.
  induction d as [|[k0 v0] d IH]; simpl.
  - split; [intros [<-|[]]; auto | intros [->|[]]; auto].
  - destruct (String.eqb_spec k0 k) as [->|Hne]; simpl.
    + split; [intros [<-|H]; auto | intros [->|[<-|H]]; auto].
    + rewrite IH. split; [intros [<-|[->|H]]; auto | intros [->|[<-|H]]; auto].
Qed.

Lemma dd_update_NoDup (k : string) (f : ArchData -> ArchData)
    (d : list (string * ArchData)) :
  NoDup (map fst d) -> NoDup (map fst (dd_update k f d)).
Proof.
  induction d as [|[k0 v0] d IH]; simpl; intros Hnd.
  - constructor; [intros [] | constructor].
  - inversion Hnd as [|? ? Hnotin Hnd']; subst.
    destruct (String.eqb_spec k0 k) as [->|Hne]; simpl.
    + constructor; assumption.
    + constructor; [|apply IH, Hnd'].
      rewrite dd_update_keys. intros [->|H]; [now apply Hne | now apply Hnotin].
Qed.

Lemma dd_update_In (k : string) (f : ArchData -> ArchData)
    (d : list (string * ArchData)) (k' : string) (v' : ArchData) :
  In (k', v') (dd_update k f d) ->
  In (k', v') d
  \/ (k' = k /\ exists v, v' = f v /\ (In (k, v) d \/ v = default_factory)).
Proof.
  induction d as [|[k0 v0] d IH]; simpl.
  - intros [[= <- <-]|[]]. right. split; [reflexivity|]. exists default_factory. auto.
  - destruct (String.eqb_spec k0 k) as [->|Hne]; simpl.
    + intros [[= <- <-]|H]; [|auto]. right. split; [reflexivity|]. exists v0. auto.
    + intros [H|H]; [auto|]. destruct (IH H) as [H'|(-> & v & -> & [H'| ->])]; auto.
      * right. split; [reflexivity|]. exists v. auto.
      * right. split; [reflexivity|]. exists default_factory. auto.
Qed.

Lemma dd_update_new (k : string) (f : ArchData -> ArchData)
    (d : list (string * ArchData)) :
  exists v, In (k, f v) (dd_update k f d).
Proof.
  induction d as [|[k0 v0] d IH]; simpl.
  - exists default_factory. now left.
  - destruct (String.eqb_spec k0 k) as [->|Hne].
    + exists v0. now left.
    + destruct IH as [v Hv]. exists v. now right.
Qed.

Lemma dd_update_old (k : string) (f : ArchData -> ArchData)
    (d : list (string * ArchData)) (k' : string) (v : ArchData) :
  In (k', v) d ->
  In (k', v) (dd_update k f d) \/ In (k', f v) (dd_update k f d).
Proof.
  induction d as [|[k0 v0] d IH]; simpl; [intros []|].
  destruct (String.eqb_spec k0 k) as [->|Hne]; simpl.
  - intros [[= <- <-]|H]; auto.
  - intros [H|H]; [auto|]. destruct (IH H); auto.
Qed.

Lemma NoDup_keys_unique {V : Type} (d : list (string * V)) (k : string) (v v' : V) :
  NoDup (map fst d) -> In (k, v) d -> In (k, v') d -> v = v'.
Proof.
  induction d as [|[k0 v0] d IH]; simpl; [intros _ []|].
  intros Hnd. inversion Hnd as [|? ? Hnotin Hnd']; subst.
  intros [[= -> ->]|H1] [[= <-]|H2]; auto.
  - exfalso. apply Hnotin. apply (in_map fst) in H2. exact H2.
  - exfalso. apply Hnotin. apply (in_map fst) in H1. simpl in H1. congruence.
Qed.

Lemma dd_update_In_inv (k : string) (f : ArchData -> ArchData)
    (d : list (string * ArchData)) (k' : string) (v' : ArchData) :
  NoDup (map fst d) ->
  In (k', v') (dd_update k f d) ->
  (k' <> k /\ In (k', v') d)
  \/ (k' = k /\ exists v, v' = f v
                          /\ (In (k, v) d \/ (~ In k (map fst d) /\ v = default_factory))).
Proof.
  induction d as [|[k0 v0] d IH]; simpl; intros Hnd.
  - intros [[= <- <-]|[]]. right. split; [reflexivity|]. exists default_factory. auto.
  - inversion Hnd as [|? ? Hnotin Hnd']; subst.
    destruct (String.eqb_spec k0 k) as [->|Hne]; simpl.
    + intros [[= <- <-]|H].
      * right. split; [reflexivity|]. exists v0. auto.
      * left. split; [|auto]. intros ->. apply Hnotin.
        apply (in_map fst) in H. exact H.
    + intros [[= <- <-]|H]; [auto|].
      destruct (IH Hnd' H) as [[Hk Hin]|(-> & v & -> & [Hin|[Hno ->]])]; auto.
      * right. split; [reflexivity|]. exists v. auto.
      * right. split; [reflexivity|]. exists default_factory. split; [reflexivity|].
        right. split; [|reflexivity]. intros [Heq|Hk]; [now apply Hne | now apply Hno].
Qed.

(** The keys after an update: unchanged, or with the new key last. *)
Lemma dd_update_keys_eq (k : string) (f : ArchData -> ArchData)
    (d : list (string * ArchData)) :
  map fst (dd_update k f d)
  = if existsb (String.eqb k) (map fst d) then map fst d else map fst d ++ [k].
Proof.
  induction d as [|[k0 v0] d IH]; simpl; [reflexivity|].
  rewrite (String.eqb_sym k k0).
  destruct (String.eqb_spec k0 k) as [->|Hne]; simpl; [reflexivity|].
  rewrite IH. now destruct (existsb (String.eqb k) (map fst d)).
Qed.

Lemma StronglySorted_snoc {A} (R : A -> A -> Prop) (l : list A) (a : A) :
  StronglySorted R l -> Forall (fun x => R x a) l -> StronglySorted R (l ++ [a]).
Proof.
  induction 1 as [|x l Hs IH Hall]; intros Ha; simpl.
  - repeat constructor.
  - inversion Ha as [|? ? Hxa Hla]; subst. constructor; [apply IH, Hla|].
    apply Forall_app. auto.
Qed.

(** In a list sorted by the order of [ResolvedRPM] the architectures do
    not decrease. *)
Lemma ResolvedRPM_not_after_arch (x y : ResolvedRPM) :
  not_after ResolvedRPM_ltb x y -> str_ltb (arch y) (arch x) = false.
Proof.
  unfold not_after, ResolvedRPM_ltb.
  destruct (String.eqb_spec (arch y) (arch x)) as [->|Hne]; [|auto].
  intros _. apply str_ltb_irrefl.
Qed.

Definition triple_eq_dec (x y : string * string * string) : {x = y} + {x <> y}.
Proof. repeat decide equality; apply string_dec. Defined.

Lemma triple_of_injective (a b : ResolvedRPM) : triple_of a = triple_of b -> a = b.
Proof. destruct a, b. unfold triple_of. simpl. congruence. Qed.

Section Library.
Set Default Proof Using "Type".

(** [urllib.parse.urlsplit] and [str.split()]. *)
Variable urlsplit : string -> result SplitResult.
Variable split : string -> list string.

(** [ResolvedRPM.filename] *)
Definition filename (self : ResolvedRPM) : result string :=
  u <- urlsplit (url self) ;;
  Ok (name (Path (path u))).

(** The body of the loop of [gen_lockfile]. *)
Definition gen_lockfile_step (arch_data : list (string * ArchData))
    (rpm : ResolvedRPM) : result (list (string * ArchData)) :=
  let item := item_of rpm in
  fn <- filename rpm ;;
  if endswith fn ".src.rpm"
  then Ok (dd_update (arch rpm) (append_source item) arch_data)
  else Ok (dd_update (arch rpm) (append_packages item) arch_data).

(** [gen_lockfile] *)
Definition gen_lockfile (rpms : list ResolvedRPM) : result Lockfile.Document :=
  arch_data <- foldM gen_lockfile_step (sorted ResolvedRPM_ltb rpms) [] ;;
  Ok {| Lockfile.lockfileVersion := 1;
        Lockfile.lockfileVendor := "redhat";
        Lockfile.arches := map arch_entry arch_data |}.

(** [parse_rpms], on the lines of the input file. *)
Definition parse_rpms (input_file : list string) : result (list ResolvedRPM) :=
  mapM
    (fun line =>
       match split line with
       | [a; r; u] => Ok {| arch := a; repoid := r; url := u |}
       | [] | [_] | [_; _] => Raise (ValueError "not enough values to unpack")
       | _ => Raise (ValueError "too many values to unpack")
       end)
    input_file.

(** [main], up to the serialisation of the document it prints. *)
Definition main (input_file : list string) : result Lockfile.Document :=
  rpms <- parse_rpms input_file ;;
  gen_lockfile rpms.

(** ** Properties of [gen_lockfile] *)

(** C3.  [gen_lockfile] depends on the collection of triples only: two
    inputs that hold the same triples, in any order, give the same result
    (the same document, or the same exception). *)
Theorem gen_lockfile_order_insensitive (rpms rpms' : list ResolvedRPM) :
  Permutation rpms rpms' -> gen_lockfile rpms = gen_lockfile rpms'.
Proof.
  intros Hp. unfold gen_lockfile.
  rewrite (sorted_permutation ResolvedRPM_ltb ResolvedRPM_ltb_irrefl
             ResolvedRPM_ltb_trans ResolvedRPM_ltb_total rpms rpms' Hp).
  reflexivity.
Qed.

Lemma gen_lockfile_step_triples (d d' : list (string * ArchData)) (rpm : ResolvedRPM) :
  gen_lockfile_step d rpm = Ok d' ->
  Permutation (flat_map data_triples d') (triple_of rpm :: flat_map data_triples d).
Proof.
  unfold gen_lockfile_step. destruct (filename rpm) as [fn|e]; simpl; [|discriminate].
  destruct (endswith fn ".src.rpm"); intros [= <-];
    apply (dd_update_triples (arch rpm) (item_of rpm)); auto.
Qed.

Lemma gen_lockfile_loop_triples (l : list ResolvedRPM) (d d' : list (string * ArchData)) :
  foldM gen_lockfile_step l d = Ok d' ->
  Permutation (flat_map data_triples d') (flat_map data_triples d ++ map triple_of l).
Proof.
  revert d; induction l as [|rpm l IH]; intros d; simpl.
  - intros [= <-]. now rewrite app_nil_r.
  - destruct (gen_lockfile_step d rpm) as [d1|e] eqn:E; simpl; [|discriminate].
    intros H. rewrite (IH _ H), (gen_lockfile_step_triples _ _ _ E).
    simpl. apply Permutation_middle.
Qed.

(** C7 (amended).  [gen_lockfile] does not deduplicate: each (architecture,
    repository identifier, URL) triple appears in the emitted document
    exactly as many times as it occurs in the input; the document is
    free of duplicates when the input is. *)
Theorem gen_lockfile_keeps_multiplicity
    (rpms : list ResolvedRPM) (doc : Lockfile.Document) :
  gen_lockfile rpms = Ok doc ->
  Permutation (Lockfile.triples doc) (map triple_of rpms)
  /\ (forall t, count_occ triple_eq_dec (Lockfile.triples doc) t
                = count_occ triple_eq_dec (map triple_of rpms) t)
  /\ (NoDup rpms -> NoDup (Lockfile.triples doc)).
Proof.
  unfold gen_lockfile.
  destruct (foldM gen_lockfile_step (sorted ResolvedRPM_ltb rpms) []) as [d|e] eqn:E;
    simpl; [|discriminate].
  intros [= <-].
  assert (Hp : Permutation
                 (Lockfile.triples
                    {| Lockfile.lockfileVersion := 1; Lockfile.lockfileVendor := "redhat";
                       Lockfile.arches := map arch_entry d |})
                 (map triple_of rpms)).
  { rewrite triples_arch_entries, (gen_lockfile_loop_triples _ _ _ E). simpl.
    apply Permutation_map, sorted_perm. }
  split; [exact Hp | split].
  - intros t. apply Permutation_count_occ, Hp.
  - intros Hnd. eapply Permutation_NoDup; [symmetry; exact Hp|].
    apply Injective_map_NoDup; [|exact Hnd].
    intros a b. apply triple_of_injective.
Qed.

(** ** The partition by file name *)

(** An entry whose URL gives a file name with, or without, the suffix of
    source packages. *)
Definition item_is_source (it : Lockfile.Item) : Prop :=
  exists u, urlsplit (Lockfile.url it) = Ok u
            /\ endswith (name (Path (path u))) ".src.rpm" = true.

Definition item_is_binary (it : Lockfile.Item) : Prop :=
  exists u, urlsplit (Lockfile.url it) = Ok u
            /\ endswith (name (Path (path u))) ".src.rpm" = false.

(** The invariant of the loop: one value per architecture, binary entries
    under [packages] and source entries under [source]. *)
Definition partitioned (d : list (string * ArchData)) : Prop :=
  NoDup (map fst d)
  /\ forall k v, In (k, v) d ->
       Forall item_is_binary (packages v) /\ Forall item_is_source (source v).

(** [rpm] has its entry in the list its file name selects. *)
Definition placed (rpm : ResolvedRPM) (d : list (string * ArchData)) : Prop :=
  exists fn v,
    filename rpm = Ok fn /\ In (arch rpm, v) d
    /\ In (item_of rpm) (if endswith fn ".src.rpm" then source v else packages v).

Lemma gen_lockfile_step_partition
    (d : list (string * ArchData)) (rpm : ResolvedRPM) (u : SplitResult) :
  urlsplit (url rpm) = Ok u -> partitioned d ->
  exists d', gen_lockfile_step d rpm = Ok d' /\ partitioned d' /\ placed rpm d'
             /\ forall r, placed r d -> placed r d'.
Proof.
  intros Hu [Hnd Hall]. unfold gen_lockfile_step, placed, filename. rewrite Hu. simpl.
  destruct (endswith (name (Path (path u))) ".src.rpm") eqn:Hs;
    (eexists; split; [reflexivity|]; split; [split|split]).
  all: try (apply dd_update_NoDup, Hnd).
  - intros k v Hin. apply dd_update_In in Hin.
    destruct Hin as [Hin|(-> & v0 & -> & [Hin| ->])]; simpl.
    + apply (Hall _ _ Hin).
    + destruct (Hall _ _ Hin). split; [assumption|]. apply Forall_app. split; [assumption|].
      repeat constructor. exists u. auto.
    + split; [constructor|]. repeat constructor. exists u. auto.
  - destruct (dd_update_new (arch rpm) (append_source (item_of rpm)) d) as [v Hv].
    exists (name (Path (path u))), (append_source (item_of rpm) v). rewrite Hs.
    repeat split; [exact Hv|]. simpl. apply in_or_app. right. now left.
  - intros r (fn & v & Hfn & Hin & Hit).
    destruct (dd_update_old (arch rpm) (append_source (item_of rpm)) d _ _ Hin) as [H|H].
    + exists fn, v. auto.
    + exists fn, (append_source (item_of rpm) v). repeat split; [assumption..|].
      destruct (endswith fn ".src.rpm"); simpl; [apply in_or_app; now left | assumption].
  - intros k v Hin. apply dd_update_In in Hin.
    destruct Hin as [Hin|(-> & v0 & -> & [Hin| ->])]; simpl.
    + apply (Hall _ _ Hin).
    + destruct (Hall _ _ Hin). split; [|assumption]. apply Forall_app. split; [assumption|].
      repeat constructor. exists u. auto.
    + split; [|constructor]. repeat constructor. exists u. auto.
  - destruct (dd_update_new (arch rpm) (append_packages (item_of rpm)) d) as [v Hv].
    exists (name (Path (path u))), (append_packages (item_of rpm) v). rewrite Hs.
    repeat split; [exact Hv|]. simpl. apply in_or_app. right. now left.
  - intros r (fn & v & Hfn & Hin & Hit).
    destruct (dd_update_old (arch rpm) (append_packages (item_of rpm)) d _ _ Hin) as [H|H].
    + exists fn, v. auto.
    + exists fn, (append_packages (item_of rpm) v). repeat split; [assumption..|].
      destruct (endswith fn ".src.rpm"); simpl; [assumption | apply in_or_app; now left].
Qed.

Lemma gen_lockfile_loop_partition (l : list ResolvedRPM) :
  (forall rpm, In rpm l -> exists u, urlsplit (url rpm) = Ok u) ->
  forall d, partitioned d ->
  exists d', foldM gen_lockfile_step l d = Ok d' /\ partitioned d'
             /\ (forall r, placed r d -> placed r d')
             /\ (forall r, In r l -> placed r d').
Proof.
  induction l as [|rpm l IH]; intros Hurls d Hd; simpl.
  - exists d. split; [reflexivity|]. split; [exact Hd|]. split; [auto|]. intros r [].
  - destruct (Hurls rpm (or_introl eq_refl)) as [u Hu].
    destruct (gen_lockfile_step_partition d rpm u Hu Hd) as (d1 & -> & Hd1 & Hrpm & Hkeep).
    simpl. destruct (IH (fun r Hr => Hurls r (or_intror Hr)) d1 Hd1)
      as (d' & -> & Hd' & Hkeep' & Hl).
    exists d'. split; [reflexivity|]. split; [exact Hd'|]. split; [auto|].
    intros r [<-|Hr]; auto.
Qed.

(** C4 (amended).  [gen_lockfile] raises, and returns no document, when
    [urlsplit] raises on the URL of some input triple.  When every input
    URL splits, it returns a document in which every input triple has its
    entry in the [source] list of its architecture exactly when the last
    component of the path of its URL (the path component [urlsplit]
    gives, read as a [Path]) ends with [.src.rpm], and in the [packages]
    list of its architecture exactly when it does not; that architecture
    has one entry in the document. *)
Theorem gen_lockfile_partitions_by_filename (rpms : list ResolvedRPM) :
  ((forall rpm, In rpm rpms -> exists u, urlsplit (url rpm) = Ok u) ->
   exists doc,
     gen_lockfile rpms = Ok doc
     /\ forall rpm, In rpm rpms ->
        exists u e,
          urlsplit (url rpm) = Ok u
          /\ filename rpm = Ok (name (Path (path u)))
          /\ In e (Lockfile.arches doc) /\ Lockfile.arch e = arch rpm
          /\ (In (item_of rpm) (Lockfile.source e)
              <-> endswith (name (Path (path u))) ".src.rpm" = true)
          /\ (In (item_of rpm) (Lockfile.packages e)
              <-> endswith (name (Path (path u))) ".src.rpm" = false)
          /\ (forall e', In e' (Lockfile.arches doc) ->
                Lockfile.arch e' = arch rpm -> e' = e))
  /\ (forall rpm exc, In rpm rpms -> urlsplit (url rpm) = Raise exc ->
        exists exc', gen_lockfile rpms = Raise exc').
Proof.
  split.
  - intros Hurls. unfold gen_lockfile.
    destruct (gen_lockfile_loop_partition (sorted ResolvedRPM_ltb rpms))
      with (d := @nil (string * ArchData))
      as (d & -> & [Hnd Hall] & _ & Hplaced).
    + intros rpm Hin. apply Hurls. eapply Permutation_in; [apply sorted_perm | exact Hin].
    + split; [constructor | intros k v []].
    + simpl. eexists. split; [reflexivity|]. simpl. intros rpm Hin.
      destruct (Hplaced rpm) as (fn & v & Hfn & Hv & Hit).
      { eapply Permutation_in; [symmetry; apply sorted_perm | exact Hin]. }
      destruct (Hall _ _ Hv) as [Hbin Hsrc]. rewrite Forall_forall in Hbin, Hsrc.
      unfold filename in Hfn |- *.
      destruct (urlsplit (url rpm)) as [u|] eqn:Hu; [|discriminate].
      simpl in Hfn. injection Hfn as <-.
      exists u, (arch_entry (arch rpm, v)). split; [reflexivity|].
      split; [reflexivity|].
      split; [apply in_map, Hv|]. split; [reflexivity|]. simpl.
      split; [|split].
      * split.
        -- intros H. destruct (Hsrc _ H) as (u' & Hu' & Hs). simpl in Hu'. congruence.
        -- intros Hs. now rewrite Hs in Hit.
      * split.
        -- intros H. destruct (Hbin _ H) as (u' & Hu' & Hs). simpl in Hu'. congruence.
        -- intros Hs. now rewrite Hs in Hit.
      * intros e' He' Harch. apply in_map_iff in He'. destruct He' as ([k' v'] & <- & Hin').
        simpl in Harch. subst k'. f_equal. f_equal.
        eapply NoDup_keys_unique; eassumption.
  - intros rpm exc Hin Hexc. unfold gen_lockfile.
    destruct (foldM_raises gen_lockfile_step (fun _ => True)
                (sorted ResolvedRPM_ltb rpms) rpm) with (acc := @nil (string * ArchData))
      as (e' & He' & _).
    + eapply Permutation_in; [symmetry; apply sorted_perm | exact Hin].
    + intros acc. unfold gen_lockfile_step, filename. rewrite Hexc. simpl. eauto.
    + auto.
    + rewrite He'. simpl. eauto.
Qed.

(** X3.  The document returned by [gen_lockfile] has one entry per
    architecture of the input, and no entry for any other architecture. *)
Theorem gen_lockfile_one_entry_per_arch
    (rpms : list ResolvedRPM) (doc : Lockfile.Document) :
  gen_lockfile rpms = Ok doc ->
  NoDup (map Lockfile.arch (Lockfile.arches doc))
  /\ forall a, In a (map Lockfile.arch (Lockfile.arches doc))
               <-> exists rpm, In rpm rpms /\ arch rpm = a.
Proof.
  unfold gen_lockfile.
  destruct (foldM gen_lockfile_step (sorted ResolvedRPM_ltb rpms) []) as [d|] eqn:E;
    simpl; [|discriminate].
  intros [= <-]. simpl. rewrite map_map. simpl.
  assert (Hkeys : forall l d0 d1,
            foldM gen_lockfile_step l d0 = Ok d1 ->
            (NoDup (map fst d0) -> NoDup (map fst d1))
            /\ forall a, In a (map fst d1)
                         <-> In a (map fst d0) \/ exists rpm, In rpm l /\ arch rpm = a).
  { clear. induction l as [|rpm l IH]; intros d0 d1; simpl.
    - intros [= <-]. split; [auto|]. intros a. split; [auto|].
      intros [H|(rpm & [] & _)]; exact H.
    - unfold gen_lockfile_step at 1.
      destruct (filename rpm) as [fn|]; simpl; [|discriminate].
      destruct (endswith fn ".src.rpm"); simpl; intros H;
        destruct (IH _ _ H) as [Hnd Hin]; (split; [intros H0; apply Hnd, dd_update_NoDup, H0|]);
        intros a; rewrite Hin, dd_update_keys; split.
      all: try (intros [[->|H1]|(r & Hr & Ha)]; [right; exists rpm; auto | auto
                | right; exists r; auto]).
      all: intros [H1|(r & [<-|Hr] & Ha)]; [auto | auto | right; exists r; auto]. }
  destruct (Hkeys _ _ _ E) as [Hnd Hin]. split; [apply Hnd; constructor|].
  intros a. rewrite Hin. simpl. split.
  - intros [[]|(rpm & Hr & Ha)]. exists rpm. split; [|exact Ha].
    eapply Permutation_in; [apply sorted_perm | exact Hr].
  - intros (rpm & Hr & Ha). right. exists rpm. split; [|exact Ha].
    eapply Permutation_in; [symmetry; apply sorted_perm | exact Hr].
Qed.

(** ** The lists of an architecture *)

(** Whether the file name of [rpm] has the suffix of source packages. *)
Definition is_source (rpm : ResolvedRPM) : bool :=
  match filename rpm with
  | Ok fn => endswith fn ".src.rpm"
  | Raise _ => false
  end.

(** The entries of the binary packages, and of the source packages, of
    the architecture [a] among [rpms], in the order of [rpms]. *)
Definition packages_for (a : string) (rpms : list ResolvedRPM) : list Lockfile.Item :=
  map item_of (filter (fun rpm => (arch rpm =? a) && negb (is_source rpm)) rpms).

Definition source_for (a : string) (rpms : list ResolvedRPM) : list Lockfile.Item :=
  map item_of (filter (fun rpm => (arch rpm =? a) && is_source rpm) rpms).

Definition collected (done : list ResolvedRPM) (d : list (string * ArchData)) : Prop :=
  NoDup (map fst d)
  /\ (forall k v, In (k, v) d ->
        packages v = packages_for k done /\ source v = source_for k done)
  /\ (forall k, ~ In k (map fst d) ->
        packages_for k done = [] /\ source_for k done = []).

Lemma lists_for_snoc (a : string) (done : list ResolvedRPM) (rpm : ResolvedRPM) :
  packages_for a (done ++ [rpm])
  = packages_for a done
    ++ (if (arch rpm =? a) && negb (is_source rpm) then [item_of rpm] else [])
  /\ source_for a (done ++ [rpm])
     = source_for a done
       ++ (if (arch rpm =? a) && is_source rpm then [item_of rpm] else []).
Proof.
  unfold packages_for, source_for. rewrite !filter_app, !map_app. simpl.
  split; f_equal.
  - now destruct ((arch rpm =? a) && negb (is_source rpm)).
  - now destruct ((arch rpm =? a) && is_source rpm).
Qed.

Lemma collected_step (done : list ResolvedRPM) (d d' : list (string * ArchData))
    (rpm : ResolvedRPM) :
  collected done d -> gen_lockfile_step d rpm = Ok d' -> collected (done ++ [rpm]) d'.
Proof.
  intros (Hnd & Hin & Hout). unfold gen_lockfile_step.
  destruct (filename rpm) as [fn|] eqn:Hfn; simpl; [|discriminate].
  assert (Hsrc : is_source rpm = endswith fn ".src.rpm")
    by (unfold is_source; now rewrite Hfn).
  assert (Hgoal : forall f,
            (f = append_source (item_of rpm) /\ is_source rpm = true)
            \/ (f = append_packages (item_of rpm) /\ is_source rpm = false) ->
            collected (done ++ [rpm]) (dd_update (arch rpm) f d)).
  { intros f Hf. split; [apply dd_update_NoDup, Hnd|]. split.
    - intros k v' Hv'. destruct (lists_for_snoc k done rpm) as [-> ->].
      apply (dd_update_In_inv _ _ _ _ _ Hnd) in Hv'.
      destruct Hv' as [[Hk Hv]|(-> & v & -> & Hv)].
      + destruct (Hin _ _ Hv) as [-> ->].
        destruct (String.eqb_spec (arch rpm) k) as [Heq|_]; [now destruct Hk; subst|].
        simpl. now rewrite !app_nil_r.
      + rewrite String.eqb_refl. simpl.
        assert (Hv0 : packages v = packages_for (arch rpm) done
                      /\ source v = source_for (arch rpm) done).
        { destruct Hv as [Hv|[Hno ->]]; [apply (Hin _ _ Hv)|].
          destruct (Hout _ Hno) as [-> ->]. auto. }
        destruct Hv0 as [Hp Hs].
        destruct Hf as [[-> Hsrc']|[-> Hsrc']]; rewrite Hsrc'; simpl;
          rewrite Hp, Hs, ?app_nil_r; auto.
    - intros k Hk. rewrite dd_update_keys in Hk.
      destruct (lists_for_snoc k done rpm) as [-> ->].
      destruct (String.eqb_spec (arch rpm) k) as [Heq|_].
      + exfalso. apply Hk. left. now symmetry.
      + simpl. rewrite !app_nil_r. apply Hout. intros H. apply Hk. now right. }
  destruct (endswith fn ".src.rpm"); intros [= <-]; apply Hgoal; auto.
Qed.

Lemma collected_loop (l done : list ResolvedRPM) (d d' : list (string * ArchData)) :
  collected done d -> foldM gen_lockfile_step l d = Ok d' -> collected (done ++ l) d'.
Proof.
  revert done d; induction l as [|rpm l IH]; intros done d Hc; simpl.
  - intros [= <-]. now rewrite app_nil_r.
  - destruct (gen_lockfile_step d rpm) as [d1|] eqn:E; simpl; [|discriminate].
    intros H. replace (done ++ rpm :: l) with ((done ++ [rpm]) ++ l)
      by now rewrite <- app_assoc.
    eapply IH; [|exact H]. eapply collected_step; eassumption.
Qed.

(** X14.  The document returned by [gen_lockfile] has version 1 and
    vendor [redhat], and the [packages] and [source] lists of each of
    its architecture entries are the entries of the binary, respectively
    source, artifacts of that architecture, in the sorted order of the
    input (by repository identifier, then URL), without size or
    checksum. *)
Theorem gen_lockfile_lists_are_sorted_selections
    (rpms : list ResolvedRPM) (doc : Lockfile.Document) :
  gen_lockfile rpms = Ok doc ->
  Lockfile.lockfileVersion doc = 1%Z
  /\ Lockfile.lockfileVendor doc = "redhat"
  /\ forall e, In e (Lockfile.arches doc) ->
       Lockfile.packages e
       = packages_for (Lockfile.arch e) (sorted ResolvedRPM_ltb rpms)
       /\ Lockfile.source e
          = source_for (Lockfile.arch e) (sorted ResolvedRPM_ltb rpms).
Proof.
  unfold gen_lockfile.
  destruct (foldM gen_lockfile_step (sorted ResolvedRPM_ltb rpms) []) as [d|] eqn:E;
    simpl; [|discriminate].
  intros [= <-]. simpl. split; [reflexivity|]. split; [reflexivity|].
  intros e He. apply in_map_iff in He. destruct He as ([k v] & <- & Hkv). simpl.
  assert (Hc : collected ([] ++ sorted ResolvedRPM_ltb rpms) d).
  { eapply collected_loop; [|exact E].
    split; [constructor|]. split; [intros ? ? []|]. intros k0 _. split; reflexivity. }
  destruct Hc as (_ & Hin & _). apply (Hin _ _ Hkv).
Qed.

Lemma gen_lockfile_loop_ascending (l : list ResolvedRPM) :
  StronglySorted (not_after ResolvedRPM_ltb) l ->
  forall d d',
    StronglySorted (fun a b => str_ltb a b = true) (map fst d) ->
    (forall k rpm, In k (map fst d) -> In rpm l -> str_ltb (arch rpm) k = false) ->
    foldM gen_lockfile_step l d = Ok d' ->
    StronglySorted (fun a b => str_ltb a b = true) (map fst d').
Proof.
  induction 1 as [|rpm l Hs IH Hall]; intros d d' Hd Hle; simpl.
  - intros [= <-]. exact Hd.
  - unfold gen_lockfile_step at 1.
    destruct (filename rpm) as [fn|]; simpl; [|discriminate].
    assert (Hstep : forall f,
              StronglySorted (fun a b => str_ltb a b = true)
                (map fst (dd_update (arch rpm) f d))
              /\ forall k r, In k (map fst (dd_update (arch rpm) f d)) -> In r l ->
                             str_ltb (arch r) k = false).
    { intros f. split.
      - rewrite dd_update_keys_eq.
        destruct (existsb (String.eqb (arch rpm)) (map fst d)) eqn:Hex; [exact Hd|].
        apply StronglySorted_snoc; [exact Hd|].
        apply Forall_forall. intros k Hk.
        destruct (str_ltb k (arch rpm)) eqn:Hlt; [reflexivity|].
        exfalso. assert (Heq : k = arch rpm).
        { apply str_ltb_total; [exact Hlt|]. apply (Hle k rpm Hk). now left. }
        subst k. assert (Ht : existsb (String.eqb (arch rpm)) (map fst d) = true).
        { apply existsb_exists. exists (arch rpm). split; [exact Hk|].
          apply String.eqb_refl. }
        congruence.
      - intros k r Hk Hr. rewrite dd_update_keys in Hk. destruct Hk as [->|Hk].
        + rewrite Forall_forall in Hall. apply ResolvedRPM_not_after_arch, Hall, Hr.
        + apply (Hle k r Hk). now right. }
    destruct (endswith fn ".src.rpm"); simpl; intros H;
      (eapply IH; [| |exact H]); apply Hstep.
Qed.

(** X15.  The architecture entries of the document returned by
    [gen_lockfile] are in strictly ascending order of architecture. *)
Theorem gen_lockfile_arches_ascending
    (rpms : list ResolvedRPM) (doc : Lockfile.Document) :
  gen_lockfile rpms = Ok doc ->
  StronglySorted (fun a b => str_ltb a b = true)
    (map Lockfile.arch (Lockfile.arches doc)).
Proof.
  unfold gen_lockfile.
  destruct (foldM gen_lockfile_step (sorted ResolvedRPM_ltb rpms) []) as [d|] eqn:E;
    simpl; [|discriminate].
  intros [= <-]. simpl. rewrite map_map. simpl.
  eapply (gen_lockfile_loop_ascending (sorted ResolvedRPM_ltb rpms)); [| | |exact E].
  - apply sorted_sorted.
    + apply ResolvedRPM_ltb_irrefl.
    + apply ResolvedRPM_ltb_trans.
  - constructor.
  - intros k rpm [].
Qed.

(** ** [parse_rpms] *)

(** X16.  [parse_rpms] returns exactly when every line has three fields,
    and then it returns, line by line, the triple of these fields; any
    exception it raises is a [ValueError]. *)
Theorem parse_rpms_reads_three_fields (input_file : list string) :
  (forall rpms,
     parse_rpms input_file = Ok rpms
     <-> Forall2 (fun line rpm => split line = [arch rpm; repoid rpm; url rpm])
                 input_file rpms)
  /\ (forall e, parse_rpms input_file = Raise e -> exists msg, e = ValueError msg).
Proof.
  unfold parse_rpms. split.
  - intros rpms. rewrite mapM_Forall2. split; intros H.
    + eapply Forall2_impl; [|exact H]. intros line rpm. cbv beta.
      destruct (split line) as [|a [|r [|u [|extra rest]]]]; simpl; try discriminate.
      intros [= <-]. reflexivity.
    + eapply Forall2_impl; [|exact H]. intros line [a r u]. simpl. intros ->. reflexivity.
  - induction input_file as [|line l IH]; simpl; [discriminate|].
    intros e. destruct (split line) as [|a [|r [|u [|extra rest]]]]; simpl;
      try (intros [= <-]; eauto).
    destruct (mapM _ l) as [rpms|e'] eqn:E; simpl; [discriminate|].
    intros [= <-]. apply IH. reflexivity.
Qed.

Lemma urls_split_or_not (l : list ResolvedRPM) :
  (forall rpm, In rpm l -> exists u, urlsplit (url rpm) = Ok u)
  \/ exists rpm e, In rpm l /\ urlsplit (url rpm) = Raise e.
Proof.
  induction l as [|x l [IH|(rpm & e & Hin & He)]].
  - left. intros rpm [].
  - destruct (urlsplit (url x)) as [u|e] eqn:E.
    + left. intros rpm [<-|Hin]; [eauto | now apply IH].
    + right. exists x, e. split; [now left | exact E].
  - right. exists rpm, e. split; [now right | exact He].
Qed.

(** X20.  [gen_lockfile] raises exactly when [urlsplit] raises on the URL
    of some input triple; otherwise it returns a document. *)
Theorem gen_lockfile_raises_iff_some_url_unsplittable (rpms : list ResolvedRPM) :
  (exists e, gen_lockfile rpms = Raise e)
  <-> exists rpm e, In rpm rpms /\ urlsplit (url rpm) = Raise e.
Proof.
  split.
  - intros [e He]. destruct (urls_split_or_not rpms) as [Hall|Hex]; [|exact Hex].
    exfalso. unfold gen_lockfile in He.
    destruct (gen_lockfile_loop_partition (sorted ResolvedRPM_ltb rpms))
      with (d := @nil (string * ArchData)) as (d & Hd & _).
    + intros rpm Hin. apply Hall.
      eapply Permutation_in; [apply sorted_perm | exact Hin].
    + split; [constructor | intros k v []].
    + rewrite Hd in He. discriminate.
  - intros (rpm & e & Hin & He). unfold gen_lockfile.
    destruct (foldM_raises gen_lockfile_step (fun _ => True)
                (sorted ResolvedRPM_ltb rpms) rpm) with (acc := @nil (string * ArchData))
      as (e' & He' & _).
    + eapply Permutation_in; [symmetry; apply sorted_perm | exact Hin].
    + intros acc. unfold gen_lockfile_step, filename. rewrite He. simpl. eauto.
    + auto.
    + rewrite He'. simpl. eauto.
Qed.

End Library.

(** ** The script on concrete inputs *)

Definition zlib_rpm : ResolvedRPM :=
  {| arch := "x86_64"; repoid := "baseos";
     url := "https://example/repo/x86_64/zlib-1.rpm" |}.

Definition bash_rpm : ResolvedRPM :=
  {| arch := "x86_64"; repoid := "baseos";
     url := "https://example/repo/x86_64/bash-5.1.rpm" |}.

Definition bash_srpm : ResolvedRPM :=
  {| arch := "x86_64"; repoid := "src";
     url := "https://example/src/bash-5.1.src.rpm" |}.

Definition bash_srpm_aarch64 : ResolvedRPM :=
  {| arch := "aarch64"; repoid := "src";
     url := "https://example/src/bash-5.1.src.rpm" |}.

Example gen_lockfile_example :
  gen_lockfile urlsplit_model [zlib_rpm; bash_srpm; bash_srpm_aarch64; bash_rpm]
  = Ok {| Lockfile.lockfileVersion := 1;
          Lockfile.lockfileVendor := "redhat";
          Lockfile.arches :=
            [{| Lockfile.arch := "aarch64";
                Lockfile.packages := [];
                Lockfile.source := [item_of bash_srpm_aarch64] |};
             {| Lockfile.arch := "x86_64";
                Lockfile.packages := [item_of bash_rpm; item_of zlib_rpm];
                Lockfile.source := [item_of bash_srpm] |}] |}.
Proof. reflexivity. Qed.

Lemma gen_lockfile_order_insensitive_witness :
  gen_lockfile urlsplit_model [zlib_rpm; bash_srpm; bash_rpm]
  = gen_lockfile urlsplit_model [bash_srpm; zlib_rpm; bash_rpm].
Proof.
  apply (gen_lockfile_order_insensitive urlsplit_model
           [zlib_rpm; bash_srpm; bash_rpm] [bash_srpm; zlib_rpm; bash_rpm]).
  apply perm_swap.
Defined.

Lemma gen_lockfile_partitions_by_filename_witness :
  exists doc,
    gen_lockfile urlsplit_model [zlib_rpm; bash_srpm; bash_rpm] = Ok doc
    /\ forall rpm, In rpm [zlib_rpm; bash_srpm; bash_rpm] ->
       exists u e,
         urlsplit_model (url rpm) = Ok u
         /\ filename urlsplit_model rpm = Ok (name (Path (path u)))
         /\ In e (Lockfile.arches doc) /\ Lockfile.arch e = arch rpm
         /\ (In (item_of rpm) (Lockfile.source e)
             <-> endswith (name (Path (path u))) ".src.rpm" = true)
         /\ (In (item_of rpm) (Lockfile.packages e)
             <-> endswith (name (Path (path u))) ".src.rpm" = false)
         /\ (forall e', In e' (Lockfile.arches doc) ->
               Lockfile.arch e' = arch rpm -> e' = e).
Proof.
  apply (proj1 (gen_lockfile_partitions_by_filename urlsplit_model
                  [zlib_rpm; bash_srpm; bash_rpm])).
  intros rpm [<-|[<-|[<-|[]]]]; eexists; reflexivity.
Defined.

(** A triple whose URL [urlsplit] rejects: the network location opens a
    bracket that it does not close. *)
Definition broken_srpm : ResolvedRPM :=
  {| arch := "x86_64"; repoid := "src";
     url := "https://[example/src/bash-5.1.src.rpm" |}.

(** C4, as stated, fails: [urlsplit] raises on the URL of an input triple;
    [gen_lockfile] raises with it, and places no artifact in any list. *)
Lemma unsplittable_url_places_nothing :
  urlsplit_model (url broken_srpm) = Raise (ValueError "Invalid IPv6 URL")
  /\ gen_lockfile urlsplit_model [zlib_rpm; broken_srpm]
     = Raise (ValueError "Invalid IPv6 URL").
Proof. split; reflexivity. Qed.

Definition twice_zlib_document : Lockfile.Document :=
  {| Lockfile.lockfileVersion := 1;
     Lockfile.lockfileVendor := "redhat";
     Lockfile.arches :=
       [{| Lockfile.arch := "x86_64";
           Lockfile.packages := [item_of zlib_rpm; item_of zlib_rpm];
           Lockfile.source := [] |}] |}.

(** C7, as stated, fails: a triple that occurs twice in the input appears
    twice in the document. *)
Lemma duplicate_triple_emitted_twice :
  gen_lockfile urlsplit_model [zlib_rpm; zlib_rpm] = Ok twice_zlib_document
  /\ count_occ triple_eq_dec (Lockfile.triples twice_zlib_document)
       (triple_of zlib_rpm) = 2.
Proof. split; reflexivity. Qed.

Lemma gen_lockfile_keeps_multiplicity_witness :
  Permutation (Lockfile.triples twice_zlib_document)
              (map triple_of [zlib_rpm; zlib_rpm])
  /\ (forall t, count_occ triple_eq_dec (Lockfile.triples twice_zlib_document) t
                = count_occ triple_eq_dec (map triple_of [zlib_rpm; zlib_rpm]) t)
  /\ (NoDup [zlib_rpm; zlib_rpm] -> NoDup (Lockfile.triples twice_zlib_document)).
Proof.
  apply (gen_lockfile_keeps_multiplicity urlsplit_model
           [zlib_rpm; zlib_rpm] twice_zlib_document).
  reflexivity.
Defined.

Lemma gen_lockfile_one_entry_per_arch_witness :
  NoDup (map Lockfile.arch (Lockfile.arches twice_zlib_document))
  /\ forall a, In a (map Lockfile.arch (Lockfile.arches twice_zlib_document))
               <-> exists rpm, In rpm [zlib_rpm; zlib_rpm] /\ arch rpm = a.
Proof.
  apply (gen_lockfile_one_entry_per_arch urlsplit_model
           [zlib_rpm; zlib_rpm] twice_zlib_document).
  reflexivity.
Defined.

Lemma gen_lockfile_lists_are_sorted_selections_witness :
  Lockfile.lockfileVersion twice_zlib_document = 1%Z
  /\ Lockfile.lockfileVendor twice_zlib_document = "redhat"
  /\ forall e, In e (Lockfile.arches twice_zlib_document) ->
       Lockfile.packages e
       = packages_for urlsplit_model (Lockfile.arch e)
           (sorted ResolvedRPM_ltb [zlib_rpm; zlib_rpm])
       /\ Lockfile.source e
          = source_for urlsplit_model (Lockfile.arch e)
              (sorted ResolvedRPM_ltb [zlib_rpm; zlib_rpm]).
Proof.
  apply (gen_lockfile_lists_are_sorted_selections urlsplit_model
           [zlib_rpm; zlib_rpm] twice_zlib_document).
  reflexivity.
Defined.

Definition two_arch_document : Lockfile.Document :=
  {| Lockfile.lockfileVersion := 1;
     Lockfile.lockfileVendor := "redhat";
     Lockfile.arches :=
       [{| Lockfile.arch := "aarch64";
           Lockfile.packages := [];
           Lockfile.source := [item_of bash_srpm_aarch64] |};
        {| Lockfile.arch := "x86_64";
           Lockfile.packages := [item_of zlib_rpm];
           Lockfile.source := [] |}] |}.

Lemma gen_lockfile_arches_ascending_witness :
  StronglySorted (fun a b => str_ltb a b = true)
    (map Lockfile.arch (Lockfile.arches two_arch_document)).
Proof.
  apply (gen_lockfile_arches_ascending urlsplit_model
           [zlib_rpm; bash_srpm_aarch64] two_arch_document).
  reflexivity.
Defined.

End lockfile_from_urls.

(* ================================================================== *)
(** * enhance_with_size_and_checksum.py                                *)
(* ================================================================== *)

Module enhance_with_size_and_checksum.
Import Py.

(** What the script reads of a file that it can both stat and open for
    reading: the size in bytes [stat()] reports and the hexadecimal
    SHA-256 digest of the content read from it. *)
Record File : Type := { st_size : Z; sha256_hexdigest : string }.

(** [not rpm.get("size")] and [not rpm.get("checksum")]: the key is
    absent, or its value is falsy (zero, the empty string). *)
Definition no_size (rpm : Lockfile.Item) : bool :=
  match Lockfile.size rpm with
  | None => true
  | Some n => (n =? 0)%Z
  end.

Definition no_checksum (rpm : Lockfile.Item) : bool :=
  match Lockfile.checksum rpm with
  | None => true
  | Some c => negb (str_bool c)
  end.

(** [rpm["size"] = n] and [rpm["checksum"] = c] *)
Definition set_size (rpm : Lockfile.Item) (n : Z) : Lockfile.Item :=
  {| Lockfile.url := Lockfile.url rpm; Lockfile.repoid := Lockfile.repoid rpm;
     Lockfile.size := Some n; Lockfile.checksum := Lockfile.checksum rpm |}.

Definition set_checksum (rpm : Lockfile.Item) (c : string) : Lockfile.Item :=
  {| Lockfile.url := Lockfile.url rpm; Lockfile.repoid := Lockfile.repoid rpm;
     Lockfile.size := Lockfile.size rpm; Lockfile.checksum := Some c |}.

Section Library.
Set Default Proof Using "Type".

(** [urllib.parse.urlsplit]. *)
Variable urlsplit : string -> result SplitResult.

(** The file system.  [fs p] is the file at [p] when [p] can be opened and
    read (a readable regular file).  For every other path, [stat_other p]
    is what [p.stat()] gives: the size the system reports (for a
    directory, for a file that may not be read) or the exception it raises
    ([FileNotFoundError], [PermissionError], ...); and [open_error p] is
    the exception that [open(p, "rb")] raises ([FileNotFoundError],
    [IsADirectoryError], [PermissionError], ...). *)
Variable fs : PurePosixPath -> option File.
Variable stat_other : PurePosixPath -> result Z.
Variable open_error : PurePosixPath -> exn.

(** [p.stat().st_size] *)
Definition stat_st_size (p : PurePosixPath) : result Z :=
  match fs p with
  | Some f => Ok (st_size f)
  | None => stat_other p
  end.

(** [open(p, "rb")], with what is then read from the file. *)
Definition open_rb (p : PurePosixPath) : result File :=
  match fs p with
  | Some f => Ok f
  | None => Raise (open_error p)
  end.

(** [sha256sum] *)
Definition sha256sum (filepath : PurePosixPath) : result string :=
  f <- open_rb filepath ;;
  Ok ("sha256:" ++ sha256_hexdigest f)%string.

(** The path [downloaded_rpm] of an entry. *)
Definition downloaded_rpm_path (cachi2_output_dir arch : string)
    (rpm : Lockfile.Item) : result PurePosixPath :=
  let repoid := Lockfile.repoid rpm in
  u <- urlsplit (Lockfile.url rpm) ;;
  let filename := name (Path (path u)) in
  Ok (joinpath cachi2_output_dir ["deps/rpm"; arch; repoid; filename]).

(** The body of the inner loop of [main]. *)
Definition enhance_rpm (cachi2_output_dir arch : string) (rpm : Lockfile.Item)
    : result Lockfile.Item :=
  downloaded_rpm <- downloaded_rpm_path cachi2_output_dir arch rpm ;;
  rpm <- (if no_size rpm
          then n <- stat_st_size downloaded_rpm ;; Ok (set_size rpm n)
          else Ok rpm) ;;
  if no_checksum rpm
  then c <- sha256sum downloaded_rpm ;; Ok (set_checksum rpm c)
  else Ok rpm.

(** The body of the outer loop of [main].  [rpms] lists the entries of
    [packages], then those of [source]; updating an entry through [rpms]
    updates it in the list of the document it belongs to. *)
Definition enhance_arch (cachi2_output_dir : string) (arch_data : Lockfile.ArchEntry)
    : result Lockfile.ArchEntry :=
  let arch := Lockfile.arch arch_data in
  let rpms := Lockfile.packages arch_data ++ Lockfile.source arch_data in
  rpms <- mapM (enhance_rpm cachi2_output_dir arch) rpms ;;
  let n := List.length (Lockfile.packages arch_data) in
  Ok {| Lockfile.arch := arch;
        Lockfile.packages := firstn n rpms;
        Lockfile.source := skipn n rpms |}.

(** [main], from the document loaded from the lockfile to the document
    written back to it; nothing is written when an exception is raised. *)
Definition main (cachi2_output_dir : string) (lockfile : Lockfile.Document)
    : result Lockfile.Document :=
  arches <- mapM (enhance_arch cachi2_output_dir) (Lockfile.arches lockfile) ;;
  Ok {| Lockfile.lockfileVersion := Lockfile.lockfileVersion lockfile;
        Lockfile.lockfileVendor := Lockfile.lockfileVendor lockfile;
        Lockfile.arches := arches |}.

(** ** Properties of the enrichment *)









Lemma enhance_arch_intro (dir : string) (e : Lockfile.ArchEntry)
    (pk sc : list Lockfile.Item) :
  mapM (enhance_rpm dir (Lockfile.arch e)) (Lockfile.packages e) = Ok pk ->
  mapM (enhance_rpm dir (Lockfile.arch e)) (Lockfile.source e) = Ok sc ->
  enhance_arch dir e = Ok {| Lockfile.arch := Lockfile.arch e;
                             Lockfile.packages := pk; Lockfile.source := sc |}.
Proof.
  intros Hpk Hsc. unfold enhance_arch. rewrite (mapM_app _ _ _ _ _ Hpk Hsc). simpl.
  rewrite <- (mapM_length _ _ _ Hpk).
  rewrite firstn_app, firstn_all, Nat.sub_diag, skipn_app, skipn_all, Nat.sub_diag.
  simpl. now rewrite app_nil_r.
Qed.






(** Nothing exists at [p]: [p.stat()] and [open(p, "rb")] both raise
    [FileNotFoundError]. *)
Definition nothing_at (p : PurePosixPath) : Prop :=
  fs p = None
  /\ stat_other p = Raise (FileNotFoundError p)
  /\ open_error p = FileNotFoundError p.

(** X4.  An entry that lacks its size or its checksum makes the enrichment
    raise [FileNotFoundError] when nothing exists at the path derived
    from the output directory, the architecture, the repository
    identifier and the file name of the entry's URL. *)
Theorem enhance_rpm_missing_artifact
    (cachi2_output_dir arch : string) (rpm : Lockfile.Item) (p : PurePosixPath) :
  downloaded_rpm_path cachi2_output_dir arch rpm = Ok p ->
  nothing_at p ->
  no_size rpm = true \/ no_checksum rpm = true ->
  enhance_rpm cachi2_output_dir arch rpm = Raise (FileNotFoundError p).
Proof.
  intros Hp (Hfs & Hstat & Hopen) Hmissing.
  unfold enhance_rpm, sha256sum, stat_st_size, open_rb. rewrite Hp. simpl.
  rewrite Hfs, Hstat, Hopen. destruct (no_size rpm); simpl; [reflexivity|].
  destruct Hmissing as [H|H]; [discriminate|]. now rewrite H.
Qed.

(** X22.  The size and the checksum are read independently.  For an entry
    that lacks only its size, the enrichment takes the size [stat()]
    reports for the path and never opens it: a path that cannot be opened
    (a directory, a file that may not be read) raises nothing and gives
    the entry its size.  For an entry that lacks its checksum, such a path
    makes the enrichment raise the exception of [open]. *)
Theorem enhance_rpm_path_not_readable
    (cachi2_output_dir arch : string) (rpm : Lockfile.Item) (p : PurePosixPath) (n : Z) :
  downloaded_rpm_path cachi2_output_dir arch rpm = Ok p ->
  fs p = None ->
  stat_other p = Ok n ->
  (no_size rpm = true -> no_checksum rpm = false ->
     enhance_rpm cachi2_output_dir arch rpm = Ok (set_size rpm n))
  /\ (no_checksum rpm = true ->
      enhance_rpm cachi2_output_dir arch rpm = Raise (open_error p)).
Proof.
  intros Hp Hfs Hstat.
  unfold enhance_rpm, sha256sum, stat_st_size, open_rb. rewrite Hp. simpl.
  rewrite Hfs, Hstat. split.
  - intros Hs Hc. rewrite Hs. simpl. unfold no_checksum in *. simpl. now rewrite Hc.
  - intros Hc. destruct (no_size rpm); simpl.
    + unfold no_checksum in *. simpl. now rewrite Hc.
    + now rewrite Hc.
Qed.

(** ** Enrichment from the files *)

(** The entry [rpm] once its missing fields are read from the file [f]. *)
Definition enhanced_with (f : File) (rpm : Lockfile.Item) : Lockfile.Item :=
  {| Lockfile.url := Lockfile.url rpm;
     Lockfile.repoid := Lockfile.repoid rpm;
     Lockfile.size := if no_size rpm then Some (st_size f) else Lockfile.size rpm;
     Lockfile.checksum :=
       if no_checksum rpm then Some ("sha256:" ++ sha256_hexdigest f)%string
       else Lockfile.checksum rpm |}.

(** [rpm'] is [rpm] enhanced with the file at its download path. *)
Definition read_from_download (cachi2_output_dir arch : string)
    (rpm rpm' : Lockfile.Item) : Prop :=
  exists p f,
    downloaded_rpm_path cachi2_output_dir arch rpm = Ok p
    /\ fs p = Some f /\ rpm' = enhanced_with f rpm.

Lemma enhance_rpm_reads_file (cachi2_output_dir arch : string) (rpm : Lockfile.Item)
    (p : PurePosixPath) (f : File) :
  downloaded_rpm_path cachi2_output_dir arch rpm = Ok p -> fs p = Some f ->
  enhance_rpm cachi2_output_dir arch rpm = Ok (enhanced_with f rpm).
Proof.
  intros Hp Hf. unfold enhance_rpm, sha256sum, stat_st_size, open_rb, enhanced_with.
  rewrite Hp. simpl.
  rewrite Hf. destruct rpm as [u r sz cs]. unfold no_size, no_checksum. simpl.
  destruct sz as [n|]; [destruct (n =? 0)%Z|]; simpl;
    (destruct cs as [c|]; [destruct (str_bool c)|]); reflexivity.
Qed.

(** X17.  When every artifact entry of the document has a URL that
    splits and a file at
    [cachi2_output_dir/deps/rpm/<arch>/<repoid>/<filename>], the
    enrichment returns a document with the same architectures in which
    each entry has kept its URL and repository identifier, has kept a
    non-zero size and a non-empty checksum, and has otherwise the size in
    bytes of its file and [sha256:] followed by the hexadecimal digest
    of its file. *)
Theorem main_fills_from_downloaded_files
    (cachi2_output_dir : string) (lockfile : Lockfile.Document) :
  (forall e rpm,
     In e (Lockfile.arches lockfile) ->
     In rpm (Lockfile.packages e ++ Lockfile.source e) ->
     exists p f,
       downloaded_rpm_path cachi2_output_dir (Lockfile.arch e) rpm = Ok p
       /\ fs p = Some f) ->
  exists lockfile',
    main cachi2_output_dir lockfile = Ok lockfile'
    /\ Forall2
         (fun e e' =>
            Lockfile.arch e' = Lockfile.arch e
            /\ Forall2 (read_from_download cachi2_output_dir (Lockfile.arch e))
                 (Lockfile.packages e) (Lockfile.packages e')
            /\ Forall2 (read_from_download cachi2_output_dir (Lockfile.arch e))
                 (Lockfile.source e) (Lockfile.source e'))
         (Lockfile.arches lockfile) (Lockfile.arches lockfile').
Proof.
  intros Hfiles. unfold main.
  match goal with
  | |- context [Forall2 ?R (Lockfile.arches lockfile) _] =>
      destruct (mapM_exists (enhance_arch cachi2_output_dir) R (Lockfile.arches lockfile))
        as (arches' & Harches & Hall)
  end.
  - intros e He.
    assert (Hlist : forall l, incl l (Lockfile.packages e ++ Lockfile.source e) ->
              exists l', mapM (enhance_rpm cachi2_output_dir (Lockfile.arch e)) l = Ok l'
                         /\ Forall2 (read_from_download cachi2_output_dir (Lockfile.arch e))
                              l l').
    { intros l Hl. apply mapM_exists. intros rpm Hrpm.
      destruct (Hfiles e rpm He (Hl _ Hrpm)) as (p & f & Hp & Hf).
      exists (enhanced_with f rpm).
      split; [exact (enhance_rpm_reads_file _ _ _ p f Hp Hf)|].
      exists p, f. auto. }
    destruct (Hlist (Lockfile.packages e)) as (pk & Hpk & Hpk2);
      [apply incl_appl, incl_refl|].
    destruct (Hlist (Lockfile.source e)) as (sc & Hsc & Hsc2);
      [apply incl_appr, incl_refl|].
    eexists. split; [apply (enhance_arch_intro _ _ _ _ Hpk Hsc)|]. simpl. auto.
  - rewrite Harches. simpl. eexists. split; [reflexivity|]. exact Hall.
Qed.

Lemma enhance_rpm_needs_file (cachi2_output_dir arch : string) (rpm : Lockfile.Item)
    (p : PurePosixPath) :
  downloaded_rpm_path cachi2_output_dir arch rpm = Ok p -> nothing_at p ->
  no_size rpm = true \/ no_checksum rpm = true ->
  exists e, enhance_rpm cachi2_output_dir arch rpm = Raise e.
Proof.
  intros Hp (Hfs & Hstat & Hopen) Hmissing.
  unfold enhance_rpm, sha256sum, stat_st_size, open_rb. rewrite Hp. simpl.
  rewrite Hfs, Hstat. destruct (no_size rpm); simpl; [eauto|].
  destruct Hmissing as [H|H]; [discriminate|]. rewrite H. simpl. eauto.
Qed.

(** X21.  When some artifact entry of the document lacks its size or its
    checksum and nothing exists at its download path ([stat()] and
    [open()] raise [FileNotFoundError] there), the enrichment raises and
    returns no document: nothing is written back, whatever the other
    entries are. *)
Theorem main_raises_when_a_needed_file_is_missing
    (cachi2_output_dir : string) (lockfile : Lockfile.Document)
    (e : Lockfile.ArchEntry) (rpm : Lockfile.Item) (p : PurePosixPath) :
  In e (Lockfile.arches lockfile) ->
  In rpm (Lockfile.packages e ++ Lockfile.source e) ->
  downloaded_rpm_path cachi2_output_dir (Lockfile.arch e) rpm = Ok p ->
  nothing_at p ->
  no_size rpm = true \/ no_checksum rpm = true ->
  exists exc, main cachi2_output_dir lockfile = Raise exc.
Proof.
  intros He Hrpm Hp Hfs Hmissing. unfold main.
  destruct (mapM_raises (enhance_arch cachi2_output_dir) (Lockfile.arches lockfile) e He)
    as [exc Hexc].
  - unfold enhance_arch.
    destruct (mapM_raises (enhance_rpm cachi2_output_dir (Lockfile.arch e))
                (Lockfile.packages e ++ Lockfile.source e) rpm Hrpm) as [exc Hexc].
    + eapply enhance_rpm_needs_file; eassumption.
    + rewrite Hexc. simpl. eauto.
  - rewrite Hexc. simpl. eauto.
Qed.

End Library.

(** ** The script on concrete inputs *)

Definition zlib_path : PurePosixPath :=
  Path "cachi2-output/deps/rpm/x86_64/baseos/zlib-1.rpm".

(** A download directory with one file of seven bytes. *)
Definition example_fs (p : PurePosixPath) : option File :=
  if path_eqb p zlib_path
  then Some {| st_size := 7;
               sha256_hexdigest :=
                 "239f59ed55e737c77147cf55ad0c1b030b6d7ee748a7426952f9b852d5a935e5" |}
  else None.

(** Nothing else exists: [stat()] and [open()] raise [FileNotFoundError]
    on every other path. *)
Definition absent_stat (p : PurePosixPath) : result Z := Raise (FileNotFoundError p).
Definition absent_open (p : PurePosixPath) : exn := FileNotFoundError p.

(** An empty download directory. *)
Definition empty_fs (p : PurePosixPath) : option File := None.

(** A download directory where the path of the package is a directory. *)
Definition directory_stat (p : PurePosixPath) : result Z :=
  if path_eqb p zlib_path then Ok 4096%Z else Raise (FileNotFoundError p).
Definition directory_open (p : PurePosixPath) : exn :=
  if path_eqb p zlib_path then IsADirectoryError p else FileNotFoundError p.

Definition lockfile_of (rpm : Lockfile.Item) : Lockfile.Document :=
  {| Lockfile.lockfileVersion := 1;
     Lockfile.lockfileVendor := "redhat";
     Lockfile.arches :=
       [{| Lockfile.arch := "x86_64";
           Lockfile.packages := [rpm];
           Lockfile.source := [] |}] |}.

Definition zlib_item (size : option Z) (checksum : option string) : Lockfile.Item :=
  {| Lockfile.url := "https://example/repo/x86_64/zlib-1.rpm";
     Lockfile.repoid := "baseos";
     Lockfile.size := size; Lockfile.checksum := checksum |}.

Definition zlib_checksum : string :=
  "sha256:239f59ed55e737c77147cf55ad0c1b030b6d7ee748a7426952f9b852d5a935e5".


Example main_fills_size_and_checksum :
  main urlsplit_model example_fs absent_stat absent_open "cachi2-output"
    (lockfile_of (zlib_item None None))
  = Ok (lockfile_of (zlib_item (Some 7%Z) (Some zlib_checksum))).
Proof. reflexivity. Qed.

Example main_missing_file :
  main urlsplit_model empty_fs absent_stat absent_open "cachi2-output"
    (lockfile_of (zlib_item None None))
  = Raise (FileNotFoundError zlib_path).
Proof. reflexivity. Qed.



Lemma enhance_rpm_missing_artifact_witness :
  enhance_rpm urlsplit_model empty_fs absent_stat absent_open "cachi2-output" "x86_64"
    (zlib_item (Some 7%Z) None)
  = Raise (FileNotFoundError zlib_path).
Proof.
  apply (enhance_rpm_missing_artifact urlsplit_model empty_fs absent_stat absent_open
           "cachi2-output" "x86_64" (zlib_item (Some 7%Z) None) zlib_path).
  - reflexivity.
  - repeat split.
  - right; reflexivity.
Defined.

Lemma enhance_rpm_path_not_readable_witness :
  (no_size (zlib_item None (Some zlib_checksum)) = true ->
   no_checksum (zlib_item None (Some zlib_checksum)) = false ->
   enhance_rpm urlsplit_model empty_fs directory_stat directory_open
     "cachi2-output" "x86_64" (zlib_item None (Some zlib_checksum))
   = Ok (zlib_item (Some 4096%Z) (Some zlib_checksum)))
  /\ (no_checksum (zlib_item None (Some zlib_checksum)) = true ->
      enhance_rpm urlsplit_model empty_fs directory_stat directory_open
        "cachi2-output" "x86_64" (zlib_item None (Some zlib_checksum))
      = Raise (IsADirectoryError zlib_path)).
Proof.
  apply (enhance_rpm_path_not_readable urlsplit_model empty_fs directory_stat directory_open
           "cachi2-output" "x86_64" (zlib_item None (Some zlib_checksum)) zlib_path 4096%Z).
  - reflexivity.
  - reflexivity.
  - reflexivity.
Defined.

(** A directory stands at the download path: an entry that lacks only its
    size gets the size of the directory, an entry that lacks its checksum
    makes the enrichment raise the exception of [open]. *)
Example main_directory_at_download_path :
  main urlsplit_model empty_fs directory_stat directory_open "cachi2-output"
    (lockfile_of (zlib_item None (Some zlib_checksum)))
  = Ok (lockfile_of (zlib_item (Some 4096%Z) (Some zlib_checksum)))
  /\ main urlsplit_model empty_fs directory_stat directory_open "cachi2-output"
       (lockfile_of (zlib_item (Some 7%Z) None))
     = Raise (IsADirectoryError zlib_path).
Proof. split; reflexivity. Qed.

Lemma main_fills_from_downloaded_files_witness :
  exists lockfile',
    main urlsplit_model example_fs absent_stat absent_open "cachi2-output"
      (lockfile_of (zlib_item None None)) = Ok lockfile'
    /\ Forall2
         (fun e e' =>
            Lockfile.arch e' = Lockfile.arch e
            /\ Forall2 (read_from_download urlsplit_model example_fs "cachi2-output"
                          (Lockfile.arch e))
                 (Lockfile.packages e) (Lockfile.packages e')
            /\ Forall2 (read_from_download urlsplit_model example_fs "cachi2-output"
                          (Lockfile.arch e))
                 (Lockfile.source e) (Lockfile.source e'))
         (Lockfile.arches (lockfile_of (zlib_item None None)))
         (Lockfile.arches lockfile').
Proof.
  apply (main_fills_from_downloaded_files urlsplit_model example_fs
           absent_stat absent_open "cachi2-output"
           (lockfile_of (zlib_item None None))).
  intros e rpm [<-|[]] [<-|[]]. eexists. eexists. split; reflexivity.
Defined.

Lemma main_raises_when_a_needed_file_is_missing_witness :
  exists exc,
    main urlsplit_model empty_fs absent_stat absent_open "cachi2-output"
      (lockfile_of (zlib_item (Some 7%Z) None)) = Raise exc.
Proof.
  apply (main_raises_when_a_needed_file_is_missing urlsplit_model empty_fs
           absent_stat absent_open
           "cachi2-output" (lockfile_of (zlib_item (Some 7%Z) None))
           {| Lockfile.arch := "x86_64";
              Lockfile.packages := [zlib_item (Some 7%Z) None];
              Lockfile.source := [] |}
           (zlib_item (Some 7%Z) None) zlib_path).
  - left; reflexivity.
  - left; reflexivity.
  - reflexivity.
  - repeat split.
  - right; reflexivity.
Defined.

End enhance_with_size_and_checksum.
